(** * Black-Scholes-Merton pricing and Greeks: a shallow embedding

    The development embeds [black_scholes_model.py] over the real numbers of
    the Standard Library.  Python floats are read as exact reals; the two
    values [np.inf] and [-np.inf], which the helper [_calculate_d1_d2]
    produces on purpose, are kept as separate constructors.  The option type
    is the run-time string the Python functions receive (the default value
    ["call"] of the parameter is left to the caller).  A Python function
    either returns a float or raises; this is the type [result].

    [np.log], [np.sqrt] and [np.exp] are [ln], [sqrt] and [exp]; the first
    two are only met on positive arguments, where they agree.  [norm.pdf]
    and [norm.cdf] of [scipy.stats] are the density and the distribution
    function of the standard normal law, built below from the integral of
    the Standard Library; at the infinities they are [0], and [0] or [1]. *)

From Stdlib Require Import Reals Lra Lia String Bool.

Open Scope R_scope.

(** ** Values *)

(** A float that may be infinite: the values of [d1] and [d2]. *)
Inductive ereal : Type :=
| NegInf : ereal
| Fin : R -> ereal
| PosInf : ereal.

(** Unary minus on such a value, as in [-d1] and [-d2]. *)
Definition eopp (d : ereal) : ereal :=
  match d with
  | NegInf => PosInf
  | Fin x => Fin (- x)
  | PosInf => NegInf
  end.

Inductive exn : Type :=
| ValueError : string -> exn.

Inductive result : Type :=
| Return : R -> result
| Raise : exn -> result.

(** Comparisons of floats, as booleans, for [T <= 0 or sigma <= 0]. *)
Definition Rleb (x y : R) : bool := if Rle_dec x y then true else false.
Definition Rltb (x y : R) : bool := if Rlt_dec x y then true else false.

Lemma Rleb_true (x y : R) : x <= y -> Rleb x y = true.
Proof. intros H. unfold Rleb. destruct (Rle_dec x y); [reflexivity | contradiction]. Qed.

Lemma Rleb_false (x y : R) : y < x -> Rleb x y = false.
Proof. intros H. unfold Rleb. destruct (Rle_dec x y); [lra | reflexivity]. Qed.

Lemma Rltb_true (x y : R) : x < y -> Rltb x y = true.
Proof. intros H. unfold Rltb. destruct (Rlt_dec x y); [reflexivity | contradiction]. Qed.

Lemma Rltb_false (x y : R) : y <= x -> Rltb x y = false.
Proof. intros H. unfold Rltb. destruct (Rlt_dec x y); [lra | reflexivity]. Qed.

(** ** Real analysis used by the model of [scipy.stats.norm]

    [norm.cdf] is the integral of the Gaussian density.  The Standard
    Library integrates over a segment; the section below turns that into a
    primitive on the whole line, for any continuous integrand. *)

Section Primitive.

Variable f : R -> R.
Hypothesis f_cont : continuity f.

Lemma cont_integrable (a b : R) : Riemann_integrable f a b.
Proof.
  destruct (Rle_dec a b) as [H | H].
  - apply continuity_implies_RiemannInt; [exact H | intros; apply f_cont].
  - apply RiemannInt_P1, continuity_implies_RiemannInt;
      [lra | intros; apply f_cont].
Qed.

(** The integral of [f] from [0] to [x], for [x] of either sign. *)
Definition integral_0 (x : R) : R := RiemannInt (cont_integrable 0 x).

Lemma integral_0_at_0 : integral_0 0 = 0.
Proof. unfold integral_0. apply RiemannInt_P9. Qed.

Lemma integral_0_local (a b : R) (h : a <= b)
      (C0 : forall x : R, a <= x <= b -> continuity_pt f x) (y : R) :
  a <= y <= b ->
  integral_0 y = integral_0 a + primitive h (FTC_P1 h C0) y.
Proof.
  intros [Hy1 Hy2]. unfold primitive.
  destruct (Rle_dec a y) as [r1 | n1]; [| contradiction].
  destruct (Rle_dec y b) as [r2 | n2]; [| contradiction].
  unfold integral_0. symmetry. apply RiemannInt_P26.
Qed.

Lemma integral_0_deriv (x : R) : derivable_pt_lim integral_0 x (f x).
Proof.
  assert (h : x - 1 <= x + 1) by lra.
  assert (C0 : forall y : R, x - 1 <= y <= x + 1 -> continuity_pt f y)
    by (intros; apply f_cont).
  assert (HP : derivable_pt_lim (primitive h (FTC_P1 h C0)) x (f x))
    by (apply RiemannInt_P28; lra).
  intros eps Heps. destruct (HP eps Heps) as [delta Hd].
  assert (Hm : 0 < Rmin delta 1)
    by (apply Rmin_pos; [apply cond_pos | lra]).
  exists (mkposreal _ Hm). simpl. intros k Hk0 Hk.
  assert (Hk1 : Rabs k < delta)
    by (eapply Rlt_le_trans; [exact Hk | apply Rmin_l]).
  assert (Hk2 : Rabs k < 1)
    by (eapply Rlt_le_trans; [exact Hk | apply Rmin_r]).
  apply Rabs_def2 in Hk2.
  rewrite (integral_0_local _ _ h C0 (x + k)) by lra.
  rewrite (integral_0_local _ _ h C0 x) by lra.
  replace (integral_0 (x - 1) + primitive h (FTC_P1 h C0) (x + k)
           - (integral_0 (x - 1) + primitive h (FTC_P1 h C0) x))
    with (primitive h (FTC_P1 h C0) (x + k) - primitive h (FTC_P1 h C0) x)
    by ring.
  apply Hd; assumption.
Qed.

End Primitive.

(** Monotonicity from the sign of a derivative given as a limit. *)

Lemma deriv_nonneg_incr (F F' : R -> R) :
  (forall x, derivable_pt_lim F x (F' x)) ->
  (forall x, 0 <= F' x) ->
  forall a b, a <= b -> F a <= F b.
Proof.
  intros HD Hpos a b [Hab | ->]; [| lra].
  destruct (MVT_cor2 F F' a b Hab (fun c _ => HD c)) as [c [Hc _]].
  specialize (Hpos c). nra.
Qed.

Lemma deriv_pos_incr (F F' : R -> R) :
  (forall x, derivable_pt_lim F x (F' x)) ->
  (forall x, 0 < F' x) ->
  forall a b, a < b -> F a < F b.
Proof.
  intros HD Hpos a b Hab.
  destruct (MVT_cor2 F F' a b Hab (fun c _ => HD c)) as [c [Hc _]].
  specialize (Hpos c). nra.
Qed.

Lemma deriv_nonpos_decr (F F' : R -> R) :
  (forall x, derivable_pt_lim F x (F' x)) ->
  (forall x, F' x <= 0) ->
  forall a b, a <= b -> F b <= F a.
Proof.
  intros HD Hneg a b [Hab | ->]; [| lra].
  destruct (MVT_cor2 F F' a b Hab (fun c _ => HD c)) as [c [Hc _]].
  specialize (Hneg c). nra.
Qed.

Lemma deriv_zero_const (F F' : R -> R) :
  (forall x, derivable_pt_lim F x (F' x)) ->
  (forall x, F' x = 0) ->
  forall a b, F a = F b.
Proof.
  intros HD H0 a b.
  assert (forall u v, u <= v -> F u = F v).
  { intros u v Huv. apply Rle_antisym.
    - apply (deriv_nonneg_incr F F' HD); [intros; rewrite H0; lra | exact Huv].
    - apply (deriv_nonpos_decr F F' HD); [intros; rewrite H0; lra | exact Huv]. }
  destruct (Rle_dec a b); [auto | symmetry; apply H; lra].
Qed.

(** ** Derivative rules on functions written as lambdas *)

Section DerivRules.
Variables (f g : R -> R) (x l1 l2 : R).

Lemma dl_value : derivable_pt_lim f x l1 -> l1 = l2 -> derivable_pt_lim f x l2.
Proof. intros H <-. exact H. Qed.

Lemma dl_ext : (forall y, f y = g y) -> derivable_pt_lim f x l1 -> derivable_pt_lim g x l1.
Proof.
  intros E H eps Heps. destruct (H eps Heps) as [d Hd].
  exists d. intros h Hh1 Hh2. rewrite <- !E. apply Hd; assumption.
Qed.

Lemma dl_const (c : R) : derivable_pt_lim (fun _ => c) x 0.
Proof. exact (derivable_pt_lim_const c x). Qed.

Lemma dl_id : derivable_pt_lim (fun y => y) x 1.
Proof. exact (derivable_pt_lim_id x). Qed.

Lemma dl_plus : derivable_pt_lim f x l1 -> derivable_pt_lim g x l2 ->
  derivable_pt_lim (fun y => f y + g y) x (l1 + l2).
Proof. exact (derivable_pt_lim_plus f g x l1 l2). Qed.

Lemma dl_minus : derivable_pt_lim f x l1 -> derivable_pt_lim g x l2 ->
  derivable_pt_lim (fun y => f y - g y) x (l1 - l2).
Proof. exact (derivable_pt_lim_minus f g x l1 l2). Qed.

Lemma dl_opp : derivable_pt_lim f x l1 -> derivable_pt_lim (fun y => - f y) x (- l1).
Proof. exact (derivable_pt_lim_opp f x l1). Qed.

Lemma dl_mult : derivable_pt_lim f x l1 -> derivable_pt_lim g x l2 ->
  derivable_pt_lim (fun y => f y * g y) x (l1 * g x + f x * l2).
Proof. exact (derivable_pt_lim_mult f g x l1 l2). Qed.

Lemma dl_comp : derivable_pt_lim g x l1 -> derivable_pt_lim f (g x) l2 ->
  derivable_pt_lim (fun y => f (g y)) x (l2 * l1).
Proof. exact (derivable_pt_lim_comp g f x l1 l2). Qed.

Lemma dl_exp : derivable_pt_lim g x l1 ->
  derivable_pt_lim (fun y => exp (g y)) x (exp (g x) * l1).
Proof.
  intros H. exact (derivable_pt_lim_comp g exp x l1 (exp (g x)) H (derivable_pt_lim_exp (g x))).
Qed.

Lemma dl_div_const (c : R) : derivable_pt_lim f x l1 ->
  derivable_pt_lim (fun y => f y / c) x (l1 / c).
Proof. intros H. exact (derivable_pt_lim_scal_right f x l1 (/ c) H). Qed.

Lemma dl_pow (n : nat) : derivable_pt_lim g x l1 ->
  derivable_pt_lim (fun y => g y ^ n) x (INR n * g x ^ pred n * l1).
Proof.
  intros H.
  exact (derivable_pt_lim_comp g (fun y => y ^ n) x l1 _ H (derivable_pt_lim_pow (g x) n)).
Qed.
End DerivRules.

Create HintDb deriv_db.

Ltac dl_rules :=
  lazymatch goal with
  | |- derivable_pt_lim (fun _ => ?c) ?x _ => apply (dl_const x c)
  | |- derivable_pt_lim (fun y => y) _ _ => apply dl_id
  | |- derivable_pt_lim (fun y => @?a y + @?b y) ?x _ =>
      eapply (dl_plus a b x); dl_rules
  | |- derivable_pt_lim (fun y => @?a y - @?b y) ?x _ =>
      eapply (dl_minus a b x); dl_rules
  | |- derivable_pt_lim (fun y => - @?a y) ?x _ =>
      eapply (dl_opp a x); dl_rules
  | |- derivable_pt_lim (fun y => @?a y * @?b y) ?x _ =>
      eapply (dl_mult a b x); dl_rules
  | |- derivable_pt_lim (fun y => @?a y / ?c) ?x _ =>
      eapply (dl_div_const a x _ c); dl_rules
  | |- derivable_pt_lim (fun y => exp (@?a y)) ?x _ =>
      eapply (dl_exp a x); dl_rules
  | |- derivable_pt_lim (fun y => @?a y ^ ?n) ?x _ =>
      eapply (dl_pow a x _ n); dl_rules
  | |- derivable_pt_lim (fun y => ?F (@?a y)) ?x _ =>
      eapply (dl_comp F a x); [dl_rules | solve [eauto with deriv_db]]
  | |- derivable_pt_lim ?F ?x _ => solve [eauto with deriv_db]
  end.

Ltac dl_auto := eapply dl_value; [dl_rules | ].

Lemma dl_continuity (F F' : R -> R) :
  (forall x, derivable_pt_lim F x (F' x)) -> continuity F.
Proof.
  intros H x. apply derivable_continuous_pt. exists (F' x). apply H.
Qed.

(** ** The Gaussian kernel and its integral *)

Definition gauss (t : R) : R := exp (- t ^ 2 / 2).

Lemma gauss_deriv (t : R) : derivable_pt_lim gauss t (- t * gauss t).
Proof. unfold gauss. dl_auto. cbn [Init.Nat.pred INR]. field. Qed.

Lemma gauss_cont : continuity gauss.
Proof. exact (dl_continuity gauss _ gauss_deriv). Qed.

Lemma gauss_pos (t : R) : 0 < gauss t.
Proof. apply exp_pos. Qed.

Lemma gauss_even (t : R) : gauss (- t) = gauss t.
Proof. unfold gauss. f_equal. field. Qed.

(** [gauss_int x] is the integral of the kernel from [0] to [x]. *)
Definition gauss_int (x : R) : R := integral_0 gauss gauss_cont x.

Lemma gauss_int_deriv (x : R) : derivable_pt_lim gauss_int x (gauss x).
Proof. apply integral_0_deriv. Qed.

#[local] Hint Resolve gauss_int_deriv gauss_deriv : deriv_db.

Lemma gauss_int_0 : gauss_int 0 = 0.
Proof. apply integral_0_at_0. Qed.

Lemma gauss_int_incr (a b : R) : a <= b -> gauss_int a <= gauss_int b.
Proof.
  apply (deriv_nonneg_incr gauss_int gauss gauss_int_deriv).
  intros x. apply Rlt_le, gauss_pos.
Qed.

Lemma gauss_int_strict (a b : R) : a < b -> gauss_int a < gauss_int b.
Proof.
  apply (deriv_pos_incr gauss_int gauss gauss_int_deriv). exact gauss_pos.
Qed.

Lemma gauss_int_odd (x : R) : gauss_int (- x) = - gauss_int x.
Proof.
  pose (F := fun y : R => gauss_int y + gauss_int (- y)).
  assert (HD : forall y, derivable_pt_lim F y ((fun _ => 0) y)).
  { intros y. unfold F. dl_auto. rewrite gauss_even. ring. }
  assert (E : F x = F 0) by (apply (deriv_zero_const F _ HD); reflexivity).
  unfold F in E. rewrite Ropp_0, gauss_int_0 in E. lra.
Qed.

(** The integral is bounded: the kernel is below [exp ((1 - t) / 2)]. *)
Lemma gauss_int_bounded (x : R) : gauss_int x <= 2 * exp (1 / 2).
Proof.
  pose (F := fun y : R => gauss_int y + 2 * exp ((1 - y) / 2)).
  pose (F' := fun y : R => gauss y - exp ((1 - y) / 2)).
  assert (HD : forall y, derivable_pt_lim F y (F' y)).
  { intros y. unfold F, F'. dl_auto. field. }
  assert (Hneg : forall y, F' y <= 0).
  { intros y. unfold F', gauss.
    assert (exp (- y ^ 2 / 2) <= exp ((1 - y) / 2)); [| lra].
    destruct (Req_dec (- y ^ 2 / 2) ((1 - y) / 2)) as [-> | Hne]; [lra |].
    apply Rlt_le, exp_increasing. nra. }
  destruct (Rle_dec 0 x) as [Hx | Hx].
  - assert (H := deriv_nonpos_decr F F' HD Hneg 0 x Hx).
    unfold F in H. rewrite gauss_int_0 in H.
    replace ((1 - 0) / 2) with (1 / 2) in H by field.
    assert (0 < exp ((1 - x) / 2)) by apply exp_pos. lra.
  - assert (gauss_int x <= gauss_int 0) by (apply gauss_int_incr; lra).
    rewrite gauss_int_0 in H. assert (0 < exp (1 / 2)) by apply exp_pos. lra.
Qed.

(** The improper integral over the half line, as the limit of the integrals
    up to [n]. *)
Definition gauss_seq (n : nat) : R := gauss_int (INR n).

Lemma gauss_seq_growing : Un_growing gauss_seq.
Proof. intros n. apply gauss_int_incr, le_INR. auto. Qed.

Lemma gauss_seq_has_ub : has_ub gauss_seq.
Proof.
  exists (2 * exp (1 / 2)). intros y [n ->]. apply gauss_int_bounded.
Qed.

Definition gauss_half : R :=
  proj1_sig (growing_cv gauss_seq gauss_seq_growing gauss_seq_has_ub).

Lemma gauss_half_cv : Un_cv gauss_seq gauss_half.
Proof.
  unfold gauss_half.
  exact (proj2_sig (growing_cv gauss_seq gauss_seq_growing gauss_seq_has_ub)).
Qed.

Lemma gauss_int_le_half (x : R) : gauss_int x <= gauss_half.
Proof.
  destruct (INR_unbounded x) as [n Hn].
  apply Rle_trans with (gauss_seq n).
  - apply gauss_int_incr. lra.
  - apply (growing_ineq gauss_seq gauss_half gauss_seq_growing gauss_half_cv).
Qed.

Lemma gauss_half_pos : 0 < gauss_half.
Proof.
  apply Rlt_le_trans with (gauss_int 1).
  - rewrite <- gauss_int_0. apply gauss_int_strict. lra.
  - apply gauss_int_le_half.
Qed.

Lemma gauss_int_tail (eps : R) :
  0 < eps -> exists M, forall x, M <= x -> gauss_half - eps < gauss_int x.
Proof.
  intros Heps. destruct (gauss_half_cv eps Heps) as [N HN].
  exists (INR N). intros x Hx.
  assert (H := HN N (Nat.le_refl N)). unfold Rdist in H.
  apply Rabs_def2 in H. destruct H as [_ H].
  assert (gauss_seq N <= gauss_int x) by (apply gauss_int_incr; exact Hx).
  lra.
Qed.

(** ** The value of the Gaussian integral *)

Definition gauss_total : R := 2 * gauss_half.

Lemma gauss_total_pos : 0 < gauss_total.
Proof. unfold gauss_total. assert (H := gauss_half_pos). lra. Qed.

(** Monotonicity on a segment, for integrands with a sign on it only. *)
Lemma deriv_nonneg_incr_on (a b : R) (F F' : R -> R) :
  (forall x, a <= x <= b -> derivable_pt_lim F x (F' x)) ->
  (forall x, a <= x <= b -> 0 <= F' x) ->
  forall u v, a <= u -> u <= v -> v <= b -> F u <= F v.
Proof.
  intros HD Hpos u v Hu [Huv | ->] Hv; [| lra].
  destruct (MVT_cor2 F F' u v Huv) as [c [Hc Hc']].
  { intros c Hc. apply HD. lra. }
  assert (0 <= F' c) by (apply Hpos; lra). nra.
Qed.

#[local] Hint Resolve derivable_pt_lim_cos derivable_pt_lim_sin
  derivable_pt_lim_atan : deriv_db.

(** ** Wallis integrals

    [wallis n] is the integral of [cos ^ n] over [[0, pi/2]].  The product
    of two consecutive ones is known in closed form, which pins down the
    Gaussian integral between two sequences with the same limit. *)
Definition cospow (n : nat) (t : R) : R := cos t ^ n.

Lemma cospow_deriv (n : nat) (t : R) :
  derivable_pt_lim (cospow n) t (INR n * cos t ^ pred n * - sin t).
Proof. unfold cospow. dl_auto. ring. Qed.

Lemma cospow_cont (n : nat) : continuity (cospow n).
Proof. exact (dl_continuity (cospow n) _ (cospow_deriv n)). Qed.

Definition wallis_int (n : nat) (x : R) : R :=
  integral_0 (cospow n) (cospow_cont n) x.

Lemma wallis_int_deriv (n : nat) (x : R) :
  derivable_pt_lim (wallis_int n) x (cos x ^ n).
Proof. apply (integral_0_deriv (cospow n)). Qed.

#[local] Hint Resolve wallis_int_deriv : deriv_db.

Lemma wallis_int_0 (n : nat) : wallis_int n 0 = 0.
Proof. apply integral_0_at_0. Qed.

Definition wallis (n : nat) : R := wallis_int n (PI / 2).

Lemma wallis_int_zero (x : R) : wallis_int 0 x = x.
Proof.
  pose (F := fun y : R => wallis_int 0 y - y).
  assert (HD : forall y, derivable_pt_lim F y ((fun _ => 0) y)).
  { intros y. unfold F. dl_auto. simpl. ring. }
  assert (E := deriv_zero_const F _ HD (fun _ => eq_refl) x 0).
  unfold F in E. rewrite wallis_int_0 in E. lra.
Qed.

Lemma wallis_int_one (x : R) : wallis_int 1 x = sin x.
Proof.
  pose (F := fun y : R => wallis_int 1 y - sin y).
  assert (HD : forall y, derivable_pt_lim F y ((fun _ => 0) y)).
  { intros y. unfold F. dl_auto. simpl. ring. }
  assert (E := deriv_zero_const F _ HD (fun _ => eq_refl) x 0).
  unfold F in E. rewrite wallis_int_0, sin_0 in E. lra.
Qed.

Lemma wallis_0 : wallis 0 = PI / 2.
Proof. apply wallis_int_zero. Qed.

Lemma wallis_1 : wallis 1 = 1.
Proof. unfold wallis. rewrite wallis_int_one. apply sin_PI2. Qed.

Lemma wallis_int_rec (n : nat) (x : R) :
  INR (n + 2) * wallis_int (n + 2) x =
  INR (n + 1) * wallis_int n x + cos x ^ (n + 1) * sin x.
Proof.
  pose (F := fun y : R =>
               INR (n + 2) * wallis_int (n + 2) y
               - INR (n + 1) * wallis_int n y - cos y ^ (n + 1) * sin y).
  assert (HD : forall y, derivable_pt_lim F y ((fun _ => 0) y)).
  { intros y. unfold F. dl_auto.
    replace (n + 2)%nat with (S (S n)) by lia.
    replace (n + 1)%nat with (S n) by lia.
    cbn [pred]. rewrite !S_INR.
    assert (E := sin2_cos2 y). unfold Rsqr in E.
    replace (cos y ^ S (S n)) with (cos y ^ n * (cos y * cos y)) by (simpl; ring).
    replace (cos y ^ S n) with (cos y ^ n * cos y) by (simpl; ring).
    assert (E' : cos y * cos y = 1 - sin y * sin y) by lra.
    set (p := cos y ^ n).
    replace (p * cos y * (cos y * 1)) with (p * (cos y * cos y)) by ring.
    rewrite E'. ring. }
  assert (E := deriv_zero_const F _ HD (fun _ => eq_refl) x 0).
  unfold F in E. rewrite !wallis_int_0, sin_0 in E. lra.
Qed.

Lemma wallis_rec (n : nat) :
  INR (n + 2) * wallis (n + 2) = INR (n + 1) * wallis n.
Proof.
  unfold wallis. rewrite wallis_int_rec, cos_PI2.
  rewrite pow_i by lia. ring.
Qed.

Lemma wallis_product (n : nat) :
  INR (n + 1) * wallis n * wallis (n + 1) = PI / 2.
Proof.
  induction n as [| n IH].
  - simpl. rewrite wallis_0, wallis_1. ring.
  - replace (S n) with (n + 1)%nat by lia.
    replace (n + 1 + 1)%nat with (n + 2)%nat by lia.
    rewrite <- IH.
    transitivity (wallis (n + 1) * (INR (n + 2) * wallis (n + 2))); [ring |].
    rewrite wallis_rec. ring.
Qed.

Lemma wallis_decr (n : nat) : wallis (S n) <= wallis n.
Proof.
  pose (F := fun y : R => wallis_int n y - wallis_int (S n) y).
  pose (F' := fun y : R => cos y ^ n - cos y ^ S n).
  assert (HD : forall y, 0 <= y <= PI / 2 -> derivable_pt_lim F y (F' y)).
  { intros y _. unfold F, F'. dl_auto. ring. }
  assert (Hpos : forall y, 0 <= y <= PI / 2 -> 0 <= F' y).
  { intros y Hy. unfold F'.
    assert (Hc : 0 <= cos y) by (apply cos_ge_0; lra).
    assert (Hc1 := COS_bound y).
    assert (0 <= cos y ^ n) by (apply pow_le, Hc).
    simpl. nra. }
  assert (Hpi := PI_RGT_0).
  assert (H := deriv_nonneg_incr_on 0 (PI / 2) F F' HD Hpos 0 (PI / 2)).
  unfold F in H. rewrite !wallis_int_0 in H. unfold wallis. lra.
Qed.

Lemma wallis_nonneg (n : nat) : 0 <= wallis n.
Proof.
  assert (HD : forall y, 0 <= y <= PI / 2 ->
                         derivable_pt_lim (wallis_int n) y (cos y ^ n))
    by (intros; apply wallis_int_deriv).
  assert (Hpos : forall y, 0 <= y <= PI / 2 -> 0 <= cos y ^ n).
  { intros y Hy. apply pow_le, cos_ge_0; lra. }
  assert (Hpi := PI_RGT_0).
  assert (H := deriv_nonneg_incr_on 0 (PI / 2) _ _ HD Hpos 0 (PI / 2)).
  rewrite wallis_int_0 in H. unfold wallis. lra.
Qed.

Lemma wallis_sqr_lower (n : nat) :
  PI / 2 / INR (n + 2) <= wallis (n + 1) ^ 2.
Proof.
  assert (Hp := wallis_product (n + 1)).
  replace (n + 1 + 1)%nat with (n + 2)%nat in Hp by lia.
  assert (Hd : wallis (n + 2) <= wallis (n + 1)).
  { replace (n + 2)%nat with (S (n + 1)) by lia. apply wallis_decr. }
  assert (H0 := wallis_nonneg (n + 1)). assert (H1 := wallis_nonneg (n + 2)).
  assert (HN : 0 < INR (n + 2)) by (apply lt_0_INR; lia).
  apply Rmult_le_reg_r with (INR (n + 2)); [exact HN |].
  unfold Rdiv at 1. rewrite Rmult_assoc, Rinv_l by lra.
  rewrite Rmult_1_r, <- Hp.
  assert (wallis (n + 1) * wallis (n + 2) <= wallis (n + 1) * wallis (n + 1))
    by nra.
  nra.
Qed.

Lemma wallis_sqr_upper (n : nat) :
  wallis (n + 1) ^ 2 <= PI / 2 / INR (n + 1).
Proof.
  assert (Hp := wallis_product n).
  assert (Hd : wallis (n + 1) <= wallis n).
  { replace (n + 1)%nat with (S n) by lia. apply wallis_decr. }
  assert (H0 := wallis_nonneg (n + 1)). assert (H1 := wallis_nonneg n).
  assert (HN : 0 < INR (n + 1)) by (apply lt_0_INR; lia).
  apply Rmult_le_reg_r with (INR (n + 1)); [exact HN |].
  unfold Rdiv at 1. rewrite Rmult_assoc, Rinv_l by lra.
  rewrite Rmult_1_r, <- Hp.
  assert (wallis (n + 1) * wallis (n + 1) <= wallis n * wallis (n + 1))
    by nra.
  nra.
Qed.

Lemma exp_pow (x : R) (n : nat) : exp x ^ n = exp (INR n * x).
Proof.
  induction n as [| n IH].
  - simpl. rewrite Rmult_0_l, exp_0. reflexivity.
  - rewrite S_INR. simpl pow. rewrite IH, <- exp_plus. f_equal. ring.
Qed.

Lemma cos_sqr_le_exp (t : R) : 0 <= cos t ^ 2 <= exp (- sin t ^ 2).
Proof.
  assert (E := sin2_cos2 t). unfold Rsqr in E.
  assert (H := exp_ineq1_le (- sin t ^ 2)).
  split; [apply pow2_ge_0 | ]. simpl in *. lra.
Qed.

Lemma gauss_int_lower (n : nat) :
  sqrt (2 * INR n) * wallis (2 * n + 1) <= gauss_int (sqrt (2 * INR n)).
Proof.
  set (s := sqrt (2 * INR n)).
  assert (Hn : 0 <= 2 * INR n) by (assert (H := pos_INR n); lra).
  assert (Hs : 0 <= s) by apply sqrt_pos.
  assert (Hss : s * s = 2 * INR n) by (apply sqrt_sqrt, Hn).
  pose (F := fun y : R => gauss_int (s * sin y) - s * wallis_int (2 * n + 1) y).
  pose (F' := fun y : R =>
                s * cos y * (gauss (s * sin y) - (cos y ^ 2) ^ n)).
  assert (HD : forall y, 0 <= y <= PI / 2 -> derivable_pt_lim F y (F' y)).
  { intros y _. unfold F, F'. dl_auto.
    rewrite pow_add, pow_mult. ring. }
  assert (Hpos : forall y, 0 <= y <= PI / 2 -> 0 <= F' y).
  { intros y Hy. unfold F'.
    assert (Hc : 0 <= cos y) by (apply cos_ge_0; lra).
    apply Rmult_le_pos; [apply Rmult_le_pos; assumption |].
    assert ((cos y ^ 2) ^ n <= gauss (s * sin y)); [| lra].
    replace (gauss (s * sin y)) with (exp (- sin y ^ 2) ^ n).
    - apply pow_incr, cos_sqr_le_exp.
    - rewrite exp_pow. unfold gauss. f_equal.
      replace ((s * sin y) ^ 2) with (s * s * sin y ^ 2) by ring.
      rewrite Hss. field. }
  assert (Hpi := PI_RGT_0).
  assert (H := deriv_nonneg_incr_on 0 (PI / 2) F F' HD Hpos 0 (PI / 2)).
  unfold F in H.
  rewrite wallis_int_0, sin_0, sin_PI2, Rmult_0_r, gauss_int_0, Rmult_1_r in H.
  unfold wallis. lra.
Qed.

Lemma cos_atan_sqr (u : R) : cos (atan u) ^ 2 = / (1 + u ^ 2).
Proof.
  rewrite cos_atan. unfold Rsqr.
  assert (H : 0 < 1 + u * u) by nra.
  assert (Hq : sqrt (1 + u * u) * sqrt (1 + u * u) = 1 + u * u)
    by (apply sqrt_sqrt; lra).
  assert (Hq0 : 0 < sqrt (1 + u * u)) by (apply sqrt_lt_R0, H).
  replace ((1 / sqrt (1 + u * u)) ^ 2)
    with (/ (sqrt (1 + u * u) * sqrt (1 + u * u))) by (field; lra).
  rewrite Hq. f_equal. ring.
Qed.

Lemma wallis_int_even_incr (m : nat) (a b : R) :
  a <= b -> wallis_int (2 * m) a <= wallis_int (2 * m) b.
Proof.
  apply (deriv_nonneg_incr (wallis_int (2 * m)) _ (wallis_int_deriv (2 * m))).
  intros x. rewrite pow_mult. apply pow_le, pow2_ge_0.
Qed.

Lemma gauss_int_upper (m : nat) (x : R) :
  0 <= x -> gauss_int x <= sqrt (2 * INR (m + 1)) * wallis (2 * m).
Proof.
  intros Hx. set (s := sqrt (2 * INR (m + 1))).
  assert (Hn : 0 < 2 * INR (m + 1))
    by (assert (H : 0 < INR (m + 1)) by (apply lt_0_INR; lia); lra).
  assert (Hs : 0 < s) by (apply sqrt_lt_R0, Hn).
  assert (Hss : s * s = 2 * INR (m + 1)) by (apply sqrt_sqrt; lra).
  pose (F := fun y : R => s * wallis_int (2 * m) (atan (y / s)) - gauss_int y).
  pose (F' := fun y : R => (/ (1 + (y / s) ^ 2)) ^ (m + 1) - gauss y).
  assert (HD : forall y, derivable_pt_lim F y (F' y)).
  { intros y. unfold F, F'. dl_auto.
    rewrite pow_mult, cos_atan_sqr, pow_add. field. split; [lra |].
    assert (0 <= y ^ 2) by apply pow2_ge_0.
    assert (0 < s ^ 2) by (simpl; nra). lra. }
  assert (Hpos : forall y, 0 <= F' y).
  { intros y. unfold F'.
    assert (Hv : 0 <= (y / s) ^ 2) by apply pow2_ge_0.
    assert (gauss y <= (/ (1 + (y / s) ^ 2)) ^ (m + 1)); [| lra].
    replace (gauss y) with (exp (- (y / s) ^ 2) ^ (m + 1)).
    - apply pow_incr. split; [apply Rlt_le, exp_pos |].
      rewrite exp_Ropp. apply Rinv_le_contravar; [lra |].
      apply exp_ineq1_le.
    - rewrite exp_pow. unfold gauss. f_equal.
      replace (INR (m + 1)) with (s * s / 2) by lra. field. lra. }
  assert (H := deriv_nonneg_incr F F' HD Hpos 0 x Hx).
  unfold F in H.
  replace (0 / s) with 0 in H by (field; lra).
  rewrite atan_0, wallis_int_0, gauss_int_0 in H.
  assert (Hb := atan_bound (x / s)).
  assert (Hw : wallis_int (2 * m) (atan (x / s)) <= wallis (2 * m)).
  { apply wallis_int_even_incr. lra. }
  nra.
Qed.

Lemma gauss_half_le_bound (B : R) :
  (forall x, 0 <= x -> gauss_int x <= B) -> gauss_half <= B.
Proof.
  intros HB. destruct (Rle_lt_dec gauss_half B) as [H | H]; [exact H |].
  exfalso. destruct (gauss_int_tail (gauss_half - B)) as [M HM]; [lra |].
  assert (H1 := HM (Rmax M 0) (Rmax_l M 0)).
  assert (H2 := HB (Rmax M 0) (Rmax_r M 0)). lra.
Qed.

Lemma gauss_half_sqr_lower (n : nat) :
  PI / 2 * (1 - / INR (n + 1)) <= gauss_half ^ 2.
Proof.
  set (s := sqrt (2 * INR n)).
  assert (Hn : 0 <= 2 * INR n) by (assert (H := pos_INR n); lra).
  assert (Hs : 0 <= s) by apply sqrt_pos.
  assert (Hss : s * s = 2 * INR n) by (apply sqrt_sqrt, Hn).
  assert (Hw := wallis_nonneg (2 * n + 1)).
  assert (H1 : s * wallis (2 * n + 1) <= gauss_half).
  { apply Rle_trans with (gauss_int s);
      [apply gauss_int_lower | apply gauss_int_le_half]. }
  assert (H2 := wallis_sqr_lower (2 * n)).
  replace (2 * n + 2)%nat with (2 * (n + 1))%nat in H2 by lia.
  rewrite mult_INR in H2. change (INR 2) with 2 in H2.
  assert (HN : 0 < INR (n + 1)) by (apply lt_0_INR; lia).
  assert (HI : 0 < / INR (n + 1)) by (apply Rinv_0_lt_compat, HN).
  assert (E : PI / 2 * (1 - / INR (n + 1))
              = 2 * INR n * (PI / 2 / (2 * INR (n + 1)))).
  { rewrite plus_INR. change (INR 1) with 1.
    rewrite plus_INR in HN. change (INR 1) with 1 in HN. field. lra. }
  rewrite E, <- Hss.
  assert (H0 : 0 <= s * wallis (2 * n + 1)) by (apply Rmult_le_pos; assumption).
  apply Rle_trans with ((s * wallis (2 * n + 1)) ^ 2).
  - replace ((s * wallis (2 * n + 1)) ^ 2)
      with (s * s * wallis (2 * n + 1) ^ 2) by ring.
    apply Rmult_le_compat_l; [nra | exact H2].
  - apply pow_incr. split; assumption.
Qed.

Lemma gauss_half_sqr_upper (m : nat) :
  (0 < m)%nat -> gauss_half ^ 2 <= PI / 2 * (1 + / INR m).
Proof.
  intros Hm. set (s := sqrt (2 * INR (m + 1))).
  assert (HM : 0 < INR m) by (apply lt_0_INR, Hm).
  assert (Hn : 0 < 2 * INR (m + 1)) by (rewrite plus_INR; simpl; lra).
  assert (Hs : 0 <= s) by apply sqrt_pos.
  assert (Hss : s * s = 2 * INR (m + 1)) by (apply sqrt_sqrt; lra).
  assert (Hw := wallis_nonneg (2 * m)).
  assert (H1 : gauss_half <= s * wallis (2 * m)).
  { apply gauss_half_le_bound. intros x Hx. apply gauss_int_upper, Hx. }
  assert (H2 := wallis_sqr_upper (2 * m - 1)).
  replace (2 * m - 1 + 1)%nat with (2 * m)%nat in H2 by lia.
  rewrite mult_INR in H2. change (INR 2) with 2 in H2.
  assert (E : PI / 2 * (1 + / INR m)
              = 2 * INR (m + 1) * (PI / 2 / (2 * INR m))).
  { rewrite plus_INR. change (INR 1) with 1. field. lra. }
  rewrite E, <- Hss.
  assert (H0 := gauss_half_pos).
  apply Rle_trans with ((s * wallis (2 * m)) ^ 2).
  - apply pow_incr. split; [lra | exact H1].
  - replace ((s * wallis (2 * m)) ^ 2)
      with (s * s * wallis (2 * m) ^ 2) by ring.
    apply Rmult_le_compat_l; [nra | exact H2].
Qed.

(** The Gaussian integral: the kernel has mass [sqrt (2 pi)]. *)
Lemma gauss_half_sqr : gauss_half ^ 2 = PI / 2.
Proof.
  assert (Hpi := PI_RGT_0).
  apply Rle_antisym.
  - destruct (Rle_lt_dec (gauss_half ^ 2) (PI / 2)) as [H | H]; [exact H |].
    exfalso.
    destruct (archimed_cor1 ((gauss_half ^ 2 - PI / 2) / (PI / 2)))
      as [N [HN HN0]].
    { apply Rdiv_lt_0_compat; lra. }
    assert (H1 := gauss_half_sqr_upper N HN0).
    assert (H2 : PI / 2 * / INR N < gauss_half ^ 2 - PI / 2).
    { apply Rmult_lt_compat_l with (r := PI / 2) in HN; [| lra].
      replace (PI / 2 * ((gauss_half ^ 2 - PI / 2) / (PI / 2)))
        with (gauss_half ^ 2 - PI / 2) in HN by (field; lra).
      exact HN. }
    lra.
  - destruct (Rle_lt_dec (PI / 2) (gauss_half ^ 2)) as [H | H]; [exact H |].
    exfalso.
    destruct (archimed_cor1 ((PI / 2 - gauss_half ^ 2) / (PI / 2)))
      as [N [HN HN0]].
    { apply Rdiv_lt_0_compat; lra. }
    assert (H1 := gauss_half_sqr_lower N).
    assert (HNN : / INR (N + 1) <= / INR N).
    { apply Rinv_le_contravar; [apply lt_0_INR, HN0 | apply le_INR; lia]. }
    assert (H2 : PI / 2 * / INR N < PI / 2 - gauss_half ^ 2).
    { apply Rmult_lt_compat_l with (r := PI / 2) in HN; [| lra].
      replace (PI / 2 * ((PI / 2 - gauss_half ^ 2) / (PI / 2)))
        with (PI / 2 - gauss_half ^ 2) in HN by (field; lra).
      exact HN. }
    nra.
Qed.

Lemma gauss_total_value : gauss_total = sqrt (2 * PI).
Proof.
  unfold gauss_total. assert (H := gauss_half_sqr). assert (H0 := gauss_half_pos).
  assert (Hpi := PI_RGT_0).
  replace (2 * PI) with ((2 * gauss_half) ^ 2) by (simpl in *; nra).
  rewrite sqrt_pow2; lra.
Qed.

(** ** The standard normal distribution

    [std_pdf] is the density [exp (- x ^ 2 / 2) / sqrt (2 pi)] that
    [norm.pdf] evaluates, and [std_cdf] the distribution function that
    [norm.cdf] evaluates, on finite arguments: [1/2] plus the integral of
    the density from [0] to [x].  By the value of the Gaussian integral this
    is the integral of the density from minus infinity
    ([std_cdf_improper]). *)

Definition std_pdf (x : R) : R := exp (- x ^ 2 / 2) / sqrt (2 * PI).

Lemma std_pdf_eq (x : R) : std_pdf x = gauss x / gauss_total.
Proof. unfold std_pdf, gauss. rewrite gauss_total_value. reflexivity. Qed.

Lemma std_pdf_deriv (x : R) : derivable_pt_lim std_pdf x (- x * std_pdf x).
Proof.
  unfold std_pdf. dl_auto. cbn [Init.Nat.pred INR]. field.
  rewrite <- gauss_total_value. apply Rgt_not_eq, gauss_total_pos.
Qed.

Lemma std_pdf_cont : continuity std_pdf.
Proof. exact (dl_continuity std_pdf _ std_pdf_deriv). Qed.

Definition std_cdf (x : R) : R := 1 / 2 + integral_0 std_pdf std_pdf_cont x.

Lemma std_pdf_pos (x : R) : 0 < std_pdf x.
Proof.
  rewrite std_pdf_eq.
  apply Rdiv_lt_0_compat; [apply gauss_pos | apply gauss_total_pos].
Qed.

Lemma std_cdf_deriv (x : R) : derivable_pt_lim std_cdf x (std_pdf x).
Proof.
  unfold std_cdf. eapply dl_value.
  - apply dl_plus; [apply dl_const | apply integral_0_deriv].
  - ring.
Qed.

#[local] Hint Resolve std_cdf_deriv std_pdf_deriv : deriv_db.

Lemma std_cdf_eq (x : R) : std_cdf x = 1 / 2 + gauss_int x / gauss_total.
Proof.
  pose (F := fun y : R => std_cdf y - (1 / 2 + gauss_int y / gauss_total)).
  assert (HD : forall y, derivable_pt_lim F y ((fun _ => 0) y)).
  { intros y. unfold F. dl_auto. rewrite std_pdf_eq. field.
    apply Rgt_not_eq, gauss_total_pos. }
  assert (E := deriv_zero_const F _ HD (fun _ => eq_refl) x 0).
  unfold F, std_cdf in E. rewrite integral_0_at_0, gauss_int_0 in E.
  unfold std_cdf. lra.
Qed.

Lemma std_cdf_incr (a b : R) : a <= b -> std_cdf a <= std_cdf b.
Proof.
  apply (deriv_nonneg_incr std_cdf std_pdf std_cdf_deriv).
  intros x. apply Rlt_le, std_pdf_pos.
Qed.

Lemma std_cdf_sym (x : R) : std_cdf (- x) = 1 - std_cdf x.
Proof.
  rewrite !std_cdf_eq, gauss_int_odd. field.
  apply Rgt_not_eq, gauss_total_pos.
Qed.

Lemma std_cdf_le_1 (x : R) : std_cdf x <= 1.
Proof.
  rewrite std_cdf_eq. unfold gauss_total.
  assert (Hh := gauss_half_pos). assert (Hx := gauss_int_le_half x).
  assert (gauss_int x / (2 * gauss_half) <= 1 / 2); [| lra].
  apply Rmult_le_reg_r with (2 * gauss_half); [lra |].
  unfold Rdiv. rewrite Rmult_assoc, Rinv_l by lra. lra.
Qed.

Lemma std_cdf_ge_0 (x : R) : 0 <= std_cdf x.
Proof.
  assert (H := std_cdf_le_1 (- x)). rewrite std_cdf_sym in H. lra.
Qed.

(** The distribution function vanishes at minus infinity. *)
Lemma std_cdf_tail (eps : R) :
  0 < eps -> exists M, forall x, x <= M -> std_cdf x < eps.
Proof.
  intros Heps. assert (Ht := gauss_total_pos).
  destruct (gauss_int_tail (eps * gauss_total)) as [M HM]; [nra |].
  exists (- M). intros x Hx.
  assert (H := HM (- x)). rewrite gauss_int_odd in H.
  assert (H1 : gauss_half - eps * gauss_total < - gauss_int x) by (apply H; lra).
  rewrite std_cdf_eq.
  assert (gauss_int x / gauss_total < eps - 1 / 2); [| lra].
  apply Rmult_lt_reg_r with gauss_total; [exact Ht |].
  unfold Rdiv. rewrite Rmult_assoc, Rinv_l by lra.
  unfold gauss_total in *. lra.
Qed.

(** [std_cdf x] is the integral of the density over [(-inf, x]]: the
    integrals from [- m] to [x] tend to it as [m] grows. *)
Lemma std_cdf_improper (x eps : R) :
  0 < eps ->
  exists M, forall m, M <= m ->
    Rabs (std_cdf x
          - RiemannInt (cont_integrable std_pdf std_pdf_cont (- m) x)) < eps.
Proof.
  intros Heps. assert (Ht := gauss_total_pos).
  destruct (gauss_int_tail (eps * gauss_total)) as [M HM]; [nra |].
  exists M. intros m Hm.
  assert (E : RiemannInt (cont_integrable std_pdf std_pdf_cont (- m) x)
              = std_cdf x - std_cdf (- m)).
  { unfold std_cdf, integral_0.
    rewrite <- (RiemannInt_P26 (cont_integrable std_pdf std_pdf_cont 0 (- m))
                  (cont_integrable std_pdf std_pdf_cont (- m) x)
                  (cont_integrable std_pdf std_pdf_cont 0 x)).
    ring. }
  rewrite E, std_cdf_sym.
  replace (std_cdf x - (std_cdf x - (1 - std_cdf m))) with (1 - std_cdf m)
    by ring.
  assert (H1 := std_cdf_le_1 m). rewrite Rabs_pos_eq by lra.
  rewrite std_cdf_eq. assert (H2 := HM m Hm).
  assert (gauss_half / gauss_total = 1 / 2)
    by (unfold gauss_total; field; assert (H := gauss_half_pos); lra).
  assert ((gauss_half - gauss_int m) / gauss_total < eps).
  { apply Rmult_lt_reg_r with gauss_total; [exact Ht |].
    unfold Rdiv. rewrite Rmult_assoc, Rinv_l by lra. lra. }
  unfold Rdiv in *. lra.
Qed.

(** The density at a shifted point. *)
Lemma std_pdf_shift (x a : R) :
  std_pdf (x - a) = std_pdf x * exp (a * x - a ^ 2 / 2).
Proof.
  unfold std_pdf, Rdiv.
  rewrite Rmult_assoc, (Rmult_comm (/ sqrt (2 * PI))), <- Rmult_assoc, <- exp_plus.
  f_equal. f_equal. field.
Qed.

(** [scipy.stats.norm] on floats that may be infinite. *)
Module norm.

Definition cdf (d : ereal) : R :=
  match d with
  | NegInf => 0
  | Fin x => std_cdf x
  | PosInf => 1
  end.

Definition pdf (d : ereal) : R :=
  match d with
  | Fin x => std_pdf x
  | _ => 0
  end.

End norm.

Lemma norm_cdf_bounds (d : ereal) : 0 <= norm.cdf d <= 1.
Proof.
  destruct d; simpl; [lra | | lra].
  split; [apply std_cdf_ge_0 | apply std_cdf_le_1].
Qed.

Lemma norm_cdf_eopp (d : ereal) : norm.cdf (eopp d) = 1 - norm.cdf d.
Proof. destruct d; simpl; [lra | apply std_cdf_sym | lra]. Qed.

Lemma norm_pdf_nonneg (d : ereal) : 0 <= norm.pdf d.
Proof. destruct d; simpl; [lra | apply Rlt_le, std_pdf_pos | lra]. Qed.

(** ** The program

    The functions are embedded on positive spot and strike, the inputs the
    module is written for.  There [S / K] and [np.log] are defined; at
    [K = 0] Python raises [ZeroDivisionError] and for [S / K <= 0] [np.log]
    yields no real number, whereas division and [ln] are total here.  The
    properties below that reach the closed formulas assume [0 < S] and
    [0 < K]. *)

Definition _calculate_d1_d2 (S K T r sigma : R) : ereal * ereal :=
  if Rleb T 0 || Rleb sigma 0 then
    if Rltb K S then (PosInf, PosInf) else (NegInf, NegInf)
  else
    let d1 := (ln (S / K) + (r + 0.5 * sigma ^ 2) * T) / (sigma * sqrt T) in
    let d2 := d1 - sigma * sqrt T in
    (Fin d1, Fin d2).

Definition invalid_option_type : exn :=
  ValueError "Invalid option type. Must be 'call' or 'put'.".

Definition black_scholes_price (S K T r sigma : R) (option_type : string)
  : result :=
  if Rleb T 0 then
    if String.eqb option_type "call" then Return (Rmax 0 (S - K))
    else Return (Rmax 0 (K - S))
  else
    let '(d1, d2) := _calculate_d1_d2 S K T r sigma in
    if String.eqb option_type "call" then
      Return (S * norm.cdf d1 - K * exp (- r * T) * norm.cdf d2)
    else if String.eqb option_type "put" then
      Return (K * exp (- r * T) * norm.cdf (eopp d2) - S * norm.cdf (eopp d1))
    else
      Raise invalid_option_type.

Definition delta (S K T r sigma : R) (option_type : string) : result :=
  if Rleb T 0 then
    if String.eqb option_type "call" then
      Return (if Rltb K S then 1 else 0)
    else
      Return (if Rltb S K then - 1 else 0)
  else
    let '(d1, _) := _calculate_d1_d2 S K T r sigma in
    if String.eqb option_type "call" then Return (norm.cdf d1)
    else Return (norm.cdf d1 - 1).

Definition gamma (S K T r sigma : R) : result :=
  if Rleb T 0 || Rleb sigma 0 then Return 0
  else
    let '(d1, _) := _calculate_d1_d2 S K T r sigma in
    Return (norm.pdf d1 / (S * sigma * sqrt T)).

Definition vega (S K T r sigma : R) : result :=
  if Rleb T 0 || Rleb sigma 0 then Return 0
  else
    let '(d1, _) := _calculate_d1_d2 S K T r sigma in
    Return (S * norm.pdf d1 * sqrt T).

Definition theta (S K T r sigma : R) (option_type : string) : result :=
  if Rleb T 0 then Return 0
  else
    let '(d1, d2) := _calculate_d1_d2 S K T r sigma in
    let term1 := - (S * norm.pdf d1 * sigma) / (2 * sqrt T) in
    if String.eqb option_type "call" then
      let term2 := r * K * exp (- r * T) * norm.cdf d2 in
      Return ((term1 - term2) / 365)
    else
      let term2 := r * K * exp (- r * T) * norm.cdf (eopp d2) in
      Return ((term1 + term2) / 365).

Definition rho (S K T r sigma : R) (option_type : string) : result :=
  if Rleb T 0 then Return 0
  else
    let '(_, d2) := _calculate_d1_d2 S K T r sigma in
    if String.eqb option_type "call" then
      Return ((K * T * exp (- r * T) * norm.cdf d2) / 100)
    else
      Return ((- K * T * exp (- r * T) * norm.cdf (eopp d2)) / 100).

(** ** Unfolding the branches *)

Definition d1_formula (S K T r sigma : R) : R :=
  (ln (S / K) + (r + 0.5 * sigma ^ 2) * T) / (sigma * sqrt T).

Definition d2_formula (S K T r sigma : R) : R :=
  d1_formula S K T r sigma - sigma * sqrt T.

Lemma d1_d2_general (S K T r sigma : R) :
  0 < T -> 0 < sigma ->
  _calculate_d1_d2 S K T r sigma =
    (Fin (d1_formula S K T r sigma), Fin (d2_formula S K T r sigma)).
Proof.
  intros HT Hs. unfold _calculate_d1_d2.
  rewrite (Rleb_false T 0 HT), (Rleb_false sigma 0 Hs). reflexivity.
Qed.

Lemma d1_d2_zero_vol_itm (S K T r sigma : R) :
  sigma <= 0 -> K < S -> _calculate_d1_d2 S K T r sigma = (PosInf, PosInf).
Proof.
  intros Hs HSK. unfold _calculate_d1_d2.
  rewrite (Rleb_true sigma 0 Hs), orb_true_r, (Rltb_true K S HSK). reflexivity.
Qed.

Lemma d1_d2_zero_vol_otm (S K T r sigma : R) :
  sigma <= 0 -> S <= K -> _calculate_d1_d2 S K T r sigma = (NegInf, NegInf).
Proof.
  intros Hs HSK. unfold _calculate_d1_d2.
  rewrite (Rleb_true sigma 0 Hs), orb_true_r, (Rltb_false K S HSK). reflexivity.
Qed.

Lemma price_call_general (S K T r sigma : R) :
  0 < T -> 0 < sigma ->
  black_scholes_price S K T r sigma "call" =
    Return (S * std_cdf (d1_formula S K T r sigma)
            - K * exp (- r * T) * std_cdf (d2_formula S K T r sigma)).
Proof.
  intros HT Hs. unfold black_scholes_price.
  rewrite (Rleb_false T 0 HT), (d1_d2_general S K T r sigma HT Hs). reflexivity.
Qed.

Lemma price_put_general (S K T r sigma : R) :
  0 < T -> 0 < sigma ->
  black_scholes_price S K T r sigma "put" =
    Return (K * exp (- r * T) * std_cdf (- d2_formula S K T r sigma)
            - S * std_cdf (- d1_formula S K T r sigma)).
Proof.
  intros HT Hs. unfold black_scholes_price.
  rewrite (Rleb_false T 0 HT), (d1_d2_general S K T r sigma HT Hs). reflexivity.
Qed.

Lemma price_expired (S K T r sigma : R) (option_type : string) :
  T <= 0 ->
  black_scholes_price S K T r sigma option_type =
    if String.eqb option_type "call" then Return (Rmax 0 (S - K))
    else Return (Rmax 0 (K - S)).
Proof.
  intros HT. unfold black_scholes_price. rewrite (Rleb_true T 0 HT). reflexivity.
Qed.

(** An option type that is neither of the two accepted strings. *)
Definition invalid_type (option_type : string) : Prop :=
  option_type <> "call"%string /\ option_type <> "put"%string.

Lemma invalid_type_eqb (option_type : string) :
  invalid_type option_type ->
  String.eqb option_type "call" = false /\ String.eqb option_type "put" = false.
Proof. intros [H1 H2]. split; apply String.eqb_neq; assumption. Qed.

(** ** The normalised call value

    With [a = sigma * sqrt T] and [x = d1], a call is worth
    [K * exp (- r * T) * call_kernel a x].  The kernel is studied as a
    function of [x] on the whole line. *)

Definition call_kernel (a x : R) : R :=
  exp (a * x - a ^ 2 / 2) * std_cdf x - std_cdf (x - a).

Lemma call_kernel_deriv (a x : R) :
  derivable_pt_lim (call_kernel a) x (a * exp (a * x - a ^ 2 / 2) * std_cdf x).
Proof.
  unfold call_kernel. dl_auto. rewrite std_pdf_shift. ring.
Qed.

Lemma call_kernel_incr (a x y : R) :
  0 <= a -> x <= y -> call_kernel a x <= call_kernel a y.
Proof.
  intros Ha.
  apply (deriv_nonneg_incr (call_kernel a) _ (call_kernel_deriv a)).
  intros z. apply Rmult_le_pos; [| apply std_cdf_ge_0].
  apply Rmult_le_pos; [exact Ha | apply Rlt_le, exp_pos].
Qed.

Lemma call_kernel_nonneg (a x : R) : 0 <= a -> 0 <= call_kernel a x.
Proof.
  intros Ha. destruct (Rle_lt_dec 0 (call_kernel a x)) as [H | H]; [exact H |].
  exfalso.
  destruct (std_cdf_tail (- call_kernel a x)) as [M HM]; [lra |].
  pose (y := Rmin x (M + a)).
  assert (Hyx : y <= x) by apply Rmin_l.
  assert (HyM : y - a <= M) by (assert (y <= M + a) by apply Rmin_r; lra).
  assert (H1 := call_kernel_incr a y x Ha Hyx).
  assert (H2 := HM (y - a) HyM).
  assert (H3 : 0 <= exp (a * y - a ^ 2 / 2) * std_cdf y).
  { apply Rmult_le_pos; [apply Rlt_le, exp_pos | apply std_cdf_ge_0]. }
  unfold call_kernel in H1 at 1. lra.
Qed.

(** The kernel minus the normalised spot: it decreases, which is the
    monotonicity of the put. *)
Definition put_kernel (a x : R) : R :=
  call_kernel a x - exp (a * x - a ^ 2 / 2).

Lemma put_kernel_deriv (a x : R) :
  derivable_pt_lim (put_kernel a) x
    (- (a * exp (a * x - a ^ 2 / 2) * (1 - std_cdf x))).
Proof.
  unfold put_kernel, call_kernel. dl_auto. rewrite std_pdf_shift. ring.
Qed.

Lemma put_kernel_decr (a x y : R) :
  0 <= a -> x <= y -> put_kernel a y <= put_kernel a x.
Proof.
  intros Ha.
  apply (deriv_nonpos_decr (put_kernel a) _ (put_kernel_deriv a)).
  intros z.
  assert (0 <= a * exp (a * z - a ^ 2 / 2) * (1 - std_cdf z)); [| lra].
  apply Rmult_le_pos; [| assert (H := std_cdf_le_1 z); lra].
  apply Rmult_le_pos; [exact Ha | apply Rlt_le, exp_pos].
Qed.

(** ** The closed formulas in terms of the kernels *)

Section General.

Variables S K T r sigma : R.
Hypothesis HS : 0 < S.
Hypothesis HK : 0 < K.
Hypothesis HT : 0 < T.
Hypothesis Hsigma : 0 < sigma.

Lemma vol_pos : 0 < sigma * sqrt T.
Proof. apply Rmult_lt_0_compat; [exact Hsigma | apply sqrt_lt_R0, HT]. Qed.

Lemma vol_sqr : (sigma * sqrt T) ^ 2 = sigma ^ 2 * T.
Proof.
  replace ((sigma * sqrt T) ^ 2) with (sigma ^ 2 * (sqrt T * sqrt T)) by ring.
  rewrite sqrt_sqrt by lra. reflexivity.
Qed.

Lemma d1_scaled :
  sigma * sqrt T * d1_formula S K T r sigma =
  ln (S / K) + (r + 0.5 * sigma ^ 2) * T.
Proof.
  unfold d1_formula. field.
  split; apply Rgt_not_eq; [apply sqrt_lt_R0, HT | exact Hsigma].
Qed.

(** The spot in terms of [d1]. *)
Lemma spot_of_d1 :
  S = K * exp (- r * T)
      * exp (sigma * sqrt T * d1_formula S K T r sigma
             - (sigma * sqrt T) ^ 2 / 2).
Proof.
  rewrite d1_scaled, vol_sqr.
  replace (ln (S / K) + (r + 0.5 * sigma ^ 2) * T - sigma ^ 2 * T / 2)
    with (ln (S / K) + r * T) by lra.
  rewrite Rmult_assoc, <- exp_plus.
  replace (- r * T + (ln (S / K) + r * T)) with (ln (S / K)) by ring.
  rewrite exp_ln by (apply Rdiv_lt_0_compat; assumption).
  field. lra.
Qed.

Lemma call_value :
  S * std_cdf (d1_formula S K T r sigma)
  - K * exp (- r * T) * std_cdf (d2_formula S K T r sigma)
  = K * exp (- r * T)
    * call_kernel (sigma * sqrt T) (d1_formula S K T r sigma).
Proof.
  unfold call_kernel, d2_formula. assert (E := spot_of_d1).
  set (d := d1_formula S K T r sigma) in *. clearbody d.
  rewrite E at 1. ring.
Qed.

Lemma put_value :
  K * exp (- r * T) * std_cdf (- d2_formula S K T r sigma)
  - S * std_cdf (- d1_formula S K T r sigma)
  = K * exp (- r * T)
    * (put_kernel (sigma * sqrt T) (d1_formula S K T r sigma) + 1).
Proof.
  rewrite !std_cdf_sym. unfold put_kernel, call_kernel, d2_formula.
  assert (E := spot_of_d1).
  set (d := d1_formula S K T r sigma) in *. clearbody d.
  rewrite E at 1. ring.
Qed.

(** The put as a positive multiple of the kernel at [- d2]. *)
Lemma put_value_kernel :
  K * exp (- r * T) * std_cdf (- d2_formula S K T r sigma)
  - S * std_cdf (- d1_formula S K T r sigma)
  = S * call_kernel (sigma * sqrt T) (- d2_formula S K T r sigma).
Proof.
  unfold call_kernel, d2_formula. assert (E := spot_of_d1).
  set (d := d1_formula S K T r sigma) in *. clearbody d.
  set (a := sigma * sqrt T) in *. clearbody a.
  replace (- (d - a) - a) with (- d) by ring.
  assert (E' : S * exp (a * - (d - a) - a ^ 2 / 2) = K * exp (- r * T)).
  { rewrite E at 1. rewrite Rmult_assoc, <- exp_plus.
    replace (a * d - a ^ 2 / 2 + (a * - (d - a) - a ^ 2 / 2)) with 0 by field.
    rewrite exp_0. ring. }
  rewrite <- E'. ring.
Qed.

End General.

Lemma d1_formula_incr (S1 S2 K T r sigma : R) :
  0 < K -> 0 < T -> 0 < sigma -> 0 < S1 -> S1 <= S2 ->
  d1_formula S1 K T r sigma <= d1_formula S2 K T r sigma.
Proof.
  intros HK HT Hs H1 H12. unfold d1_formula.
  assert (Ha := vol_pos T sigma HT Hs).
  apply Rmult_le_compat_r; [apply Rlt_le, Rinv_0_lt_compat, Ha |].
  apply Rplus_le_compat_r.
  destruct H12 as [H12 | ->]; [| lra].
  apply Rlt_le, ln_increasing.
  - apply Rdiv_lt_0_compat; assumption.
  - apply Rmult_lt_compat_r; [apply Rinv_0_lt_compat, HK | exact H12].
Qed.

Ltac cmp_simpl :=
  repeat first
    [ rewrite Rleb_true by lra
    | rewrite Rleb_false by lra
    | rewrite Rltb_true by lra
    | rewrite Rltb_false by lra ].

(** * The properties of the specification *)

(** C1. Put-call parity: for S > 0, K > 0, T > 0, any r and sigma > 0, both
    prices are returned and price(call) - price(put) = S - K * exp (- r T),
    exactly, over the reals. *)
Theorem put_call_parity (S K T r sigma : R) :
  0 < S -> 0 < K -> 0 < T -> 0 < sigma ->
  exists c p : R,
    black_scholes_price S K T r sigma "call" = Return c /\
    black_scholes_price S K T r sigma "put" = Return p /\
    c - p = S - K * exp (- r * T).
Proof.
  intros HS HK HT Hs.
  rewrite (price_call_general S K T r sigma HT Hs).
  rewrite (price_put_general S K T r sigma HT Hs).
  do 2 eexists. split; [reflexivity |]. split; [reflexivity |].
  rewrite !std_cdf_sym. ring.
Qed.

Lemma put_call_parity_witness :
  0 < 100 /\ 0 < 105 /\ 0 < 1 /\ 0 < 0.2 /\
  exists c p : R,
    black_scholes_price 100 105 1 0.05 0.2 "call" = Return c /\
    black_scholes_price 100 105 1 0.05 0.2 "put" = Return p /\
    c - p = 100 - 105 * exp (- (0.05) * 1).
Proof.
  repeat (split; [lra |]).
  apply (put_call_parity 100 105 1 0.05 0.2); lra.
Defined.

(** C2. Expiry collapse: for S > 0, K > 0, any r, sigma >= 0 and T = 0 the
    call is worth max(0, S - K) and the put max(0, K - S); gamma, vega, theta
    and rho return 0; delta of a call is 1 if S > K and 0 otherwise; delta of
    a put is -1 if S < K and 0 otherwise. *)
Theorem expiry_collapse (S K r sigma : R) :
  0 < S -> 0 < K -> 0 <= sigma ->
  black_scholes_price S K 0 r sigma "call" = Return (Rmax 0 (S - K)) /\
  black_scholes_price S K 0 r sigma "put" = Return (Rmax 0 (K - S)) /\
  gamma S K 0 r sigma = Return 0 /\
  vega S K 0 r sigma = Return 0 /\
  (forall option_type, theta S K 0 r sigma option_type = Return 0) /\
  (forall option_type, rho S K 0 r sigma option_type = Return 0) /\
  (S > K -> delta S K 0 r sigma "call" = Return 1) /\
  (~ S > K -> delta S K 0 r sigma "call" = Return 0) /\
  (S < K -> delta S K 0 r sigma "put" = Return (- 1)) /\
  (~ S < K -> delta S K 0 r sigma "put" = Return 0).
Proof.
  intros HS HK Hs.
  unfold black_scholes_price, gamma, vega, theta, rho, delta.
  rewrite (Rleb_true 0 0) by lra. simpl.
  repeat split; intros H; cmp_simpl; reflexivity.
Qed.

Lemma expiry_collapse_witness :
  0 < 100 /\ 0 < 105 /\ 0 <= 0.2 /\
  black_scholes_price 100 105 0 0.05 0.2 "call" = Return (Rmax 0 (100 - 105)) /\
  black_scholes_price 100 105 0 0.05 0.2 "put" = Return (Rmax 0 (105 - 100)) /\
  delta 100 105 0 0.05 0.2 "put" = Return (- 1).
Proof.
  repeat (split; [lra |]).
  destruct (expiry_collapse 100 105 0.05 0.2) as (Hc & Hp & _ & _ & _ & _ & _ & _ & Hd & _);
    [lra | lra | lra |].
  split; [exact Hc |]. split; [exact Hp |]. apply Hd. lra.
Defined.

(** C5. Delta bounds: on every valid input (S, K > 0; T, sigma >= 0; any r)
    the delta of a call is returned and lies in [0, 1], and the delta of a
    put is returned and lies in [-1, 0]. *)
Theorem delta_bounds (S K T r sigma : R) :
  0 < S -> 0 < K -> 0 <= T -> 0 <= sigma ->
  (exists v, delta S K T r sigma "call" = Return v /\ 0 <= v <= 1) /\
  (exists v, delta S K T r sigma "put" = Return v /\ - 1 <= v <= 0).
Proof.
  intros HS HK HT Hs. unfold delta.
  destruct (Rle_lt_dec T 0) as [HT0 | HT0].
  - rewrite (Rleb_true T 0 HT0). simpl. split; eexists; (split; [reflexivity |]).
    + unfold Rltb. destruct (Rlt_dec K S); lra.
    + unfold Rltb. destruct (Rlt_dec S K); lra.
  - rewrite (Rleb_false T 0 HT0).
    destruct (_calculate_d1_d2 S K T r sigma) as [d1 d2]. simpl.
    assert (H := norm_cdf_bounds d1).
    split; eexists; (split; [reflexivity | lra]).
Qed.

Lemma delta_bounds_witness :
  0 < 100 /\ 0 < 105 /\ 0 <= 1 /\ 0 <= 0.2 /\
  (exists v, delta 100 105 1 0.05 0.2 "call" = Return v /\ 0 <= v <= 1) /\
  (exists v, delta 100 105 1 0.05 0.2 "put" = Return v /\ - 1 <= v <= 0).
Proof.
  repeat (split; [lra |]).
  apply (delta_bounds 100 105 1 0.05 0.2); lra.
Defined.

(** C6. Gamma and vega are non-negative on every valid input (S, K > 0;
    T, sigma >= 0; any r): both are 0 on the boundary T <= 0 or sigma <= 0,
    and otherwise they are pdf(d1) / (S sigma sqrt T) and S pdf(d1) sqrt T. *)
Theorem gamma_vega_nonneg (S K T r sigma : R) :
  0 < S -> 0 < K -> 0 <= T -> 0 <= sigma ->
  exists g v : R,
    gamma S K T r sigma = Return g /\ vega S K T r sigma = Return v /\
    0 <= g /\ 0 <= v /\
    (T <= 0 \/ sigma <= 0 -> g = 0 /\ v = 0) /\
    (0 < T /\ 0 < sigma ->
     g = std_pdf (d1_formula S K T r sigma) / (S * sigma * sqrt T) /\
     v = S * std_pdf (d1_formula S K T r sigma) * sqrt T).
Proof.
  intros HS HK HT Hs. unfold gamma, vega.
  destruct (Rle_lt_dec T 0) as [HT0 | HT0].
  { rewrite (Rleb_true T 0 HT0). simpl. exists 0, 0.
    repeat split; try reflexivity; try lra. }
  destruct (Rle_lt_dec sigma 0) as [Hs0 | Hs0].
  { rewrite (Rleb_true sigma 0 Hs0), orb_true_r. exists 0, 0.
    repeat split; try reflexivity; try lra. }
  rewrite (Rleb_false T 0 HT0), (Rleb_false sigma 0 Hs0).
  rewrite (d1_d2_general S K T r sigma HT0 Hs0). simpl.
  assert (Hp := std_pdf_pos (d1_formula S K T r sigma)).
  assert (Hq : 0 < sqrt T) by (apply sqrt_lt_R0, HT0).
  do 2 eexists. split; [reflexivity |]. split; [reflexivity |].
  split; [| split; [| split]].
  - apply Rlt_le, Rdiv_lt_0_compat; [exact Hp |].
    apply Rmult_lt_0_compat; [apply Rmult_lt_0_compat |]; assumption.
  - apply Rlt_le.
    apply Rmult_lt_0_compat; [apply Rmult_lt_0_compat |]; assumption.
  - intros [H | H]; lra.
  - intros _. split; reflexivity.
Qed.

Lemma gamma_vega_nonneg_witness :
  0 < 100 /\ 0 < 105 /\ 0 <= 1 /\ 0 <= 0.2 /\
  exists g v : R,
    gamma 100 105 1 0.05 0.2 = Return g /\ vega 100 105 1 0.05 0.2 = Return v /\
    0 <= g /\ 0 <= v.
Proof.
  repeat (split; [lra |]).
  destruct (gamma_vega_nonneg 100 105 1 0.05 0.2) as (g & v & Hg & Hv & H1 & H2 & _);
    [lra | lra | lra | lra |].
  exists g, v. exact (conj Hg (conj Hv (conj H1 H2))).
Defined.

(** C9. When T <= 0 the price is returned before the option type is checked:
    for all S, K, r, sigma and every option type it is max(0, S - K) when the
    type is "call" and max(0, K - S) for any other type, "straddle" included,
    and no error is raised. *)
Theorem expired_price_skips_type_check
        (S K T r sigma : R) (option_type : string) :
  T <= 0 ->
  (option_type = "call"%string ->
   black_scholes_price S K T r sigma option_type = Return (Rmax 0 (S - K))) /\
  (option_type <> "call"%string ->
   black_scholes_price S K T r sigma option_type = Return (Rmax 0 (K - S))) /\
  black_scholes_price S K T r sigma "straddle" = Return (Rmax 0 (K - S)) /\
  (forall e, black_scholes_price S K T r sigma option_type <> Raise e).
Proof.
  intros HT. rewrite !(price_expired S K T r sigma _ HT).
  repeat split.
  - intros ->. reflexivity.
  - intros H. apply String.eqb_neq in H. rewrite H. reflexivity.
  - intros e. destruct (String.eqb option_type "call"); discriminate.
Qed.

Lemma expired_price_skips_type_check_witness :
  0 <= 0 /\
  black_scholes_price 100 105 0 0.05 0.2 "straddle" = Return (Rmax 0 (105 - 100)).
Proof.
  split; [lra |].
  destruct (expired_price_skips_type_check 100 105 0 0.05 0.2 "straddle")
    as (_ & _ & H & _); [lra | exact H].
Defined.

(** C10. Zero volatility before expiry: for S > 0, K > 0, T > 0 and
    sigma <= 0 the helper returns (+inf, +inf) when S > K and (-inf, -inf)
    when S <= K, so the call is worth S - K exp (- r T) and the put 0 when
    S > K, and the call 0 and the put K exp (- r T) - S when S <= K. *)
Theorem zero_volatility_price (S K T r sigma : R) :
  0 < S -> 0 < K -> 0 < T -> sigma <= 0 ->
  (S > K ->
   _calculate_d1_d2 S K T r sigma = (PosInf, PosInf) /\
   black_scholes_price S K T r sigma "call" = Return (S - K * exp (- r * T)) /\
   black_scholes_price S K T r sigma "put" = Return 0) /\
  (S <= K ->
   _calculate_d1_d2 S K T r sigma = (NegInf, NegInf) /\
   black_scholes_price S K T r sigma "call" = Return 0 /\
   black_scholes_price S K T r sigma "put" = Return (K * exp (- r * T) - S)).
Proof.
  intros HS HK HT Hs. unfold black_scholes_price.
  rewrite (Rleb_false T 0 HT). split; intros HSK.
  - rewrite (d1_d2_zero_vol_itm S K T r sigma Hs HSK). simpl.
    repeat split; f_equal; ring.
  - rewrite (d1_d2_zero_vol_otm S K T r sigma Hs HSK). simpl.
    repeat split; f_equal; ring.
Qed.

Lemma zero_volatility_price_witness :
  0 < 2 /\ 0 < 1 /\ 0 < 1 /\ 0 <= 0 /\
  black_scholes_price 2 1 1 1 0 "call" = Return (2 - 1 * exp (- 1 * 1)).
Proof.
  repeat (split; [lra |]).
  destruct (zero_volatility_price 2 1 1 1 0) as [H _]; [lra | lra | lra | lra |].
  destruct H as (_ & H & _); [lra | exact H].
Defined.

(** What the four functions do with an option type that is neither "call"
    nor "put", on valid numbers: before expiry (T > 0) the price raises the
    invalid-option-type error; delta, theta and rho do not check the type,
    they treat every type other than "call" as "put" and return that
    value. *)
Lemma invalid_type_handling (S K T r sigma : R) (option_type : string) :
  0 < S -> 0 < K -> 0 <= T -> 0 <= sigma -> invalid_type option_type ->
  (0 < T ->
   black_scholes_price S K T r sigma option_type = Raise invalid_option_type) /\
  (exists v, delta S K T r sigma option_type = Return v /\
             delta S K T r sigma "put" = Return v) /\
  (exists v, theta S K T r sigma option_type = Return v /\
             theta S K T r sigma "put" = Return v) /\
  (exists v, rho S K T r sigma option_type = Return v /\
             rho S K T r sigma "put" = Return v).
Proof.
  intros HS HK HT Hs Hty.
  destruct (invalid_type_eqb option_type Hty) as [Hc Hp].
  unfold black_scholes_price, delta, theta, rho. rewrite Hc, Hp.
  replace (String.eqb "put" "call") with false by reflexivity.
  destruct (_calculate_d1_d2 S K T r sigma) as [d1 d2].
  split; [intros HT0; rewrite (Rleb_false T 0 HT0); reflexivity |].
  destruct (Rleb T 0); repeat split; eexists; split; reflexivity.
Qed.

Lemma invalid_type_handling_witness :
  0 < 100 /\ 0 < 105 /\ 0 <= 1 /\ 0 <= 0.2 /\ invalid_type "straddle" /\
  black_scholes_price 100 105 1 0.05 0.2 "straddle" = Raise invalid_option_type.
Proof.
  assert (Hty : invalid_type "straddle") by (split; discriminate).
  repeat (split; [lra |]). split; [exact Hty |].
  destruct (invalid_type_handling 100 105 1 0.05 0.2 "straddle") as [H _];
    [lra | lra | lra | lra | exact Hty |].
  apply H. lra.
Defined.

(** C3 at the failing input.  With the valid numbers S = 100, K = 105,
    T = 1, r = 0.05, sigma = 0.2 and the option type "straddle", which is
    neither "call" nor "put", delta, theta and rho each return the number
    they return for a put, where the price raises the invalid-option-type
    error for the same arguments. *)
Theorem greeks_price_straddle_as_put :
  invalid_type "straddle" /\
  black_scholes_price 100 105 1 0.05 0.2 "straddle"
  = Raise invalid_option_type /\
  (exists v, delta 100 105 1 0.05 0.2 "straddle" = Return v /\
             delta 100 105 1 0.05 0.2 "put" = Return v) /\
  (exists v, theta 100 105 1 0.05 0.2 "straddle" = Return v /\
             theta 100 105 1 0.05 0.2 "put" = Return v) /\
  (exists v, rho 100 105 1 0.05 0.2 "straddle" = Return v /\
             rho 100 105 1 0.05 0.2 "put" = Return v).
Proof.
  assert (Hty : invalid_type "straddle") by (split; discriminate).
  split; [exact Hty |].
  unfold black_scholes_price, delta, theta, rho.
  rewrite (Rleb_false 1 0) by lra.
  destruct (_calculate_d1_d2 100 105 1 0.05 0.2) as [d1 d2].
  simpl. split; [reflexivity |].
  repeat split; eexists; split; reflexivity.
Qed.

(** C4 at the failing input: at expiry the price of a "straddle" is returned
    as if it were a put, 105 - 100 = 5, and no error is raised. *)
Theorem price_straddle_at_expiry :
  black_scholes_price 100 105 0 0.05 0.2 "straddle" = Return 5.
Proof.
  unfold black_scholes_price. rewrite (Rleb_true 0 0) by lra. simpl.
  f_equal. unfold Rmax. destruct (Rle_dec 0 (105 - 100)); lra.
Qed.

(** ** Monotonicity and sign of the price *)

Lemma price_call_incr_general (S1 S2 K T r sigma : R) :
  0 < K -> 0 < T -> 0 < sigma -> 0 < S1 -> S1 <= S2 ->
  S1 * std_cdf (d1_formula S1 K T r sigma)
  - K * exp (- r * T) * std_cdf (d2_formula S1 K T r sigma)
  <= S2 * std_cdf (d1_formula S2 K T r sigma)
     - K * exp (- r * T) * std_cdf (d2_formula S2 K T r sigma).
Proof.
  intros HK HT Hs H1 H12. assert (H2 : 0 < S2) by lra.
  rewrite (call_value S1 K T r sigma H1 HK HT Hs).
  rewrite (call_value S2 K T r sigma H2 HK HT Hs).
  apply Rmult_le_compat_l.
  - apply Rlt_le, Rmult_lt_0_compat; [exact HK | apply exp_pos].
  - apply call_kernel_incr; [apply Rlt_le, vol_pos; assumption |].
    apply d1_formula_incr; assumption.
Qed.

Lemma price_put_decr_general (S1 S2 K T r sigma : R) :
  0 < K -> 0 < T -> 0 < sigma -> 0 < S1 -> S1 <= S2 ->
  K * exp (- r * T) * std_cdf (- d2_formula S2 K T r sigma)
  - S2 * std_cdf (- d1_formula S2 K T r sigma)
  <= K * exp (- r * T) * std_cdf (- d2_formula S1 K T r sigma)
     - S1 * std_cdf (- d1_formula S1 K T r sigma).
Proof.
  intros HK HT Hs H1 H12. assert (H2 : 0 < S2) by lra.
  rewrite (put_value S1 K T r sigma H1 HK HT Hs).
  rewrite (put_value S2 K T r sigma H2 HK HT Hs).
  apply Rmult_le_compat_l.
  - apply Rlt_le, Rmult_lt_0_compat; [exact HK | apply exp_pos].
  - apply Rplus_le_compat_r.
    apply put_kernel_decr; [apply Rlt_le, vol_pos; assumption |].
    apply d1_formula_incr; assumption.
Qed.

Lemma price_call_nonneg_general (S K T r sigma : R) :
  0 < S -> 0 < K -> 0 < T -> 0 < sigma ->
  0 <= S * std_cdf (d1_formula S K T r sigma)
       - K * exp (- r * T) * std_cdf (d2_formula S K T r sigma).
Proof.
  intros HS HK HT Hs. rewrite (call_value S K T r sigma HS HK HT Hs).
  apply Rmult_le_pos.
  - apply Rlt_le, Rmult_lt_0_compat; [exact HK | apply exp_pos].
  - apply call_kernel_nonneg, Rlt_le, vol_pos; assumption.
Qed.

Lemma price_put_nonneg_general (S K T r sigma : R) :
  0 < S -> 0 < K -> 0 < T -> 0 < sigma ->
  0 <= K * exp (- r * T) * std_cdf (- d2_formula S K T r sigma)
       - S * std_cdf (- d1_formula S K T r sigma).
Proof.
  intros HS HK HT Hs. rewrite (put_value_kernel S K T r sigma HS HK HT Hs).
  apply Rmult_le_pos; [lra |].
  apply call_kernel_nonneg, Rlt_le, vol_pos; assumption.
Qed.

Lemma exp_neg_lt_1 (x : R) : x < 0 -> exp x < 1.
Proof. intros H. rewrite <- exp_0. apply exp_increasing, H. Qed.

Lemma exp_rate_le_1 (r T : R) : 0 < T -> 0 <= r -> exp (- r * T) <= 1.
Proof.
  intros HT Hr. rewrite <- exp_0.
  destruct (Req_dec (- r * T) 0) as [-> | Hne]; [lra |].
  apply Rlt_le, exp_increasing. nra.
Qed.

Lemma exp_rate_ge_1 (r T : R) : 0 < T -> r <= 0 -> 1 <= exp (- r * T).
Proof.
  intros HT Hr. rewrite <- exp_0.
  destruct (Req_dec (- r * T) 0) as [-> | Hne]; [lra |].
  apply Rlt_le, exp_increasing. nra.
Qed.

Lemma price_call_zero_vol (S K T r sigma : R) :
  0 < T -> sigma <= 0 ->
  black_scholes_price S K T r sigma "call" =
    Return (if Rltb K S then S - K * exp (- r * T) else 0).
Proof.
  intros HT Hs. unfold black_scholes_price, _calculate_d1_d2.
  rewrite (Rleb_false T 0 HT), (Rleb_true sigma 0 Hs). simpl.
  destruct (Rltb K S); simpl; f_equal; ring.
Qed.

Lemma price_put_zero_vol (S K T r sigma : R) :
  0 < T -> sigma <= 0 ->
  black_scholes_price S K T r sigma "put" =
    Return (if Rltb K S then 0 else K * exp (- r * T) - S).
Proof.
  intros HT Hs. unfold black_scholes_price, _calculate_d1_d2.
  rewrite (Rleb_false T 0 HT), (Rleb_true sigma 0 Hs). simpl.
  destruct (Rltb K S); simpl; f_equal; ring.
Qed.

Lemma Rmax_0_incr (x y : R) : x <= y -> Rmax 0 x <= Rmax 0 y.
Proof.
  intros H. unfold Rmax.
  destruct (Rle_dec 0 x), (Rle_dec 0 y); lra.
Qed.

(** C7, as the code has it.  For fixed K > 0, T >= 0, sigma >= 0, any r and
    0 < S1 <= S2: the call price at S1 is at most the call price at S2
    provided sigma > 0 or T = 0 or r >= 0; the put price at S1 is at least
    the put price at S2 provided sigma > 0 or T = 0 or r <= 0. *)
Theorem price_monotone_in_spot (S1 S2 K T r sigma : R) :
  0 < K -> 0 <= T -> 0 <= sigma -> 0 < S1 -> S1 <= S2 ->
  (0 < sigma \/ T = 0 \/ 0 <= r ->
   exists c1 c2 : R,
     black_scholes_price S1 K T r sigma "call" = Return c1 /\
     black_scholes_price S2 K T r sigma "call" = Return c2 /\
     c1 <= c2) /\
  (0 < sigma \/ T = 0 \/ r <= 0 ->
   exists p1 p2 : R,
     black_scholes_price S1 K T r sigma "put" = Return p1 /\
     black_scholes_price S2 K T r sigma "put" = Return p2 /\
     p1 >= p2).
Proof.
  intros HK HT Hs H1 H12.
  destruct (Rle_lt_dec T 0) as [HT0 | HT0].
  { (* at expiry: intrinsic values *)
    rewrite !(price_expired _ K T r sigma _ HT0). simpl.
    split; intros _; do 2 eexists;
      (split; [reflexivity |]); (split; [reflexivity |]).
    - apply Rmax_0_incr. lra.
    - apply Rle_ge, Rmax_0_incr. lra. }
  destruct (Rle_lt_dec sigma 0) as [Hs0 | Hs0].
  { (* no volatility: discounted intrinsic values, chosen by S > K *)
    rewrite !(price_call_zero_vol _ K T r sigma HT0 Hs0).
    rewrite !(price_put_zero_vol _ K T r sigma HT0 Hs0).
    split; intros Hc; do 2 eexists;
      (split; [reflexivity |]); (split; [reflexivity |]).
    - unfold Rltb. destruct (Rlt_dec K S1), (Rlt_dec K S2); try lra.
      assert (exp (- r * T) <= 1) by (apply exp_rate_le_1; lra). nra.
    - unfold Rltb. destruct (Rlt_dec K S1), (Rlt_dec K S2); try lra.
      assert (1 <= exp (- r * T)) by (apply exp_rate_ge_1; lra). nra. }
  (* the closed formulas *)
  rewrite !(price_call_general _ K T r sigma HT0 Hs0).
  rewrite !(price_put_general _ K T r sigma HT0 Hs0).
  split; intros _; do 2 eexists;
    (split; [reflexivity |]); (split; [reflexivity |]).
  - apply price_call_incr_general; assumption.
  - apply Rle_ge, price_put_decr_general; assumption.
Qed.

Lemma price_monotone_in_spot_witness :
  0 < 105 /\ 0 <= 1 /\ 0 <= 0.2 /\ 0 < 100 /\ 100 <= 110 /\
  (exists c1 c2 : R,
     black_scholes_price 100 105 1 0.05 0.2 "call" = Return c1 /\
     black_scholes_price 110 105 1 0.05 0.2 "call" = Return c2 /\
     c1 <= c2) /\
  (exists p1 p2 : R,
     black_scholes_price 100 105 1 0.05 0.2 "put" = Return p1 /\
     black_scholes_price 110 105 1 0.05 0.2 "put" = Return p2 /\
     p1 >= p2).
Proof.
  repeat (split; [lra |]).
  destruct (price_monotone_in_spot 100 110 105 1 0.05 0.2) as [Hc Hp];
    [lra | lra | lra | lra | lra |].
  split; [apply Hc | apply Hp]; left; lra.
Defined.

(** C7 as written fails without volatility: with K = 1, T = 1, r = 1 and
    sigma = 0 the put is worth exp (-1) - 1 < 0 at S1 = 1 and 0 at S2 = 2, so
    it grows with the spot. *)
Lemma put_price_grows_without_volatility :
  0 < 1 /\ 0 <= 1 /\ 0 <= 0 /\ 0 < 1 <= 2 /\
  exists p1 p2 : R,
    black_scholes_price 1 1 1 1 0 "put" = Return p1 /\
    black_scholes_price 2 1 1 1 0 "put" = Return p2 /\
    ~ p1 >= p2.
Proof.
  repeat (split; [lra |]).
  rewrite !(price_put_zero_vol _ 1 1 1 0) by lra.
  do 2 eexists. split; [reflexivity |]. split; [reflexivity |].
  cmp_simpl.
  assert (exp (- (1) * 1) < 1); [| lra].
  apply exp_neg_lt_1. lra.
Qed.

(** C8, as the code has it.  For S > 0, K > 0, T >= 0, sigma >= 0 and any
    r the price is returned, and it is non-negative except in one band of
    spots without volatility: the call is negative exactly when sigma = 0,
    T > 0 and K < S < K exp (- r T), and the put exactly when sigma = 0,
    T > 0 and K exp (- r T) < S <= K. *)
Theorem price_nonneg (S K T r sigma : R) :
  0 < S -> 0 < K -> 0 <= T -> 0 <= sigma ->
  (exists c : R,
     black_scholes_price S K T r sigma "call" = Return c /\
     (0 <= c <->
      ~ (sigma = 0 /\ 0 < T /\ K < S < K * exp (- r * T)))) /\
  (exists p : R,
     black_scholes_price S K T r sigma "put" = Return p /\
     (0 <= p <->
      ~ (sigma = 0 /\ 0 < T /\ K * exp (- r * T) < S <= K))).
Proof.
  intros HS HK HT Hs.
  destruct (Rle_lt_dec T 0) as [HT0 | HT0].
  { rewrite !(price_expired S K T r sigma _ HT0). simpl.
    split; eexists; (split; [reflexivity |]);
      (split; [intros _ (_ & HT' & _); lra | intros _; apply Rmax_l]). }
  destruct (Rle_lt_dec sigma 0) as [Hs0 | Hs0].
  { rewrite (price_call_zero_vol S K T r sigma HT0 Hs0).
    rewrite (price_put_zero_vol S K T r sigma HT0 Hs0).
    assert (Hz : sigma = 0) by lra.
    split; eexists; (split; [reflexivity |]); unfold Rltb;
      destruct (Rlt_dec K S) as [HKS | HKS]; split.
    - intros Hc (_ & _ & Hband). lra.
    - intros Hn. destruct (Rle_lt_dec 0 (S - K * exp (- r * T))) as [H | H];
        [exact H |]. exfalso. apply Hn. repeat split; try assumption; lra.
    - intros _ (_ & _ & Hband). lra.
    - intros _. lra.
    - intros _ (_ & _ & Hband). lra.
    - intros _. lra.
    - intros Hp (_ & _ & Hband). lra.
    - intros Hn. destruct (Rle_lt_dec 0 (K * exp (- r * T) - S)) as [H | H];
        [exact H |]. exfalso. apply Hn. repeat split; try assumption; lra. }
  rewrite (price_call_general S K T r sigma HT0 Hs0).
  rewrite (price_put_general S K T r sigma HT0 Hs0).
  split; eexists; (split; [reflexivity |]); split.
  - intros _ (Hz & _). lra.
  - intros _. apply price_call_nonneg_general; assumption.
  - intros _ (Hz & _). lra.
  - intros _. apply price_put_nonneg_general; assumption.
Qed.

Lemma price_nonneg_witness :
  0 < 2 /\ 0 < 1 /\ 0 <= 1 /\ 0 <= 0 /\
  exists p : R, black_scholes_price 2 1 1 1 0 "put" = Return p /\ 0 <= p.
Proof.
  repeat (split; [lra |]).
  destruct (price_nonneg 2 1 1 1 0) as [_ (p & Hp & Hiff)];
    [lra | lra | lra | lra |].
  exists p. split; [exact Hp |]. apply Hiff.
  intros (_ & _ & Hband). lra.
Defined.

(** C8 as written fails without volatility: with S = K = 1, T = 1, r = 1 and
    sigma = 0 the put price is exp (-1) - 1 < 0. *)
Lemma put_price_negative_without_volatility :
  0 < 1 /\ 0 <= 1 /\ 0 <= 0 /\
  exists p : R, black_scholes_price 1 1 1 1 0 "put" = Return p /\ p < 0.
Proof.
  repeat (split; [lra |]).
  rewrite (price_put_zero_vol 1 1 1 1 0) by lra.
  eexists. split; [reflexivity |]. cmp_simpl.
  assert (exp (- (1) * 1) < 1); [| lra].
  apply exp_neg_lt_1. lra.
Qed.

From Stdlib Require Import List.
Import ListNotations.

(** * Further properties of the pricing functions *)

(** ** More derivative rules: logarithm, square root, quotient *)

Section DerivRulesMore.
Variables (f g : R -> R) (x l1 l2 : R).

Lemma dl_ln : derivable_pt_lim g x l1 -> 0 < g x ->
  derivable_pt_lim (fun y => ln (g y)) x (/ g x * l1).
Proof.
  intros H Hpos.
  exact (derivable_pt_lim_comp g ln x l1 _ H (derivable_pt_lim_ln (g x) Hpos)).
Qed.

Lemma dl_sqrt : derivable_pt_lim g x l1 -> 0 < g x ->
  derivable_pt_lim (fun y => sqrt (g y)) x (/ (2 * sqrt (g x)) * l1).
Proof.
  intros H Hpos.
  exact (derivable_pt_lim_comp g sqrt x l1 _ H (derivable_pt_lim_sqrt (g x) Hpos)).
Qed.

Lemma dl_div : derivable_pt_lim f x l1 -> derivable_pt_lim g x l2 -> g x <> 0 ->
  derivable_pt_lim (fun y => f y / g y) x ((l1 * g x - l2 * f x) / (g x)²).
Proof. exact (derivable_pt_lim_div f g x l1 l2). Qed.

(** Two functions that agree near [x] have the same derivative at [x]. *)
Lemma dl_ext_loc (delta : R) :
  0 < delta ->
  (forall y, Rabs (y - x) < delta -> f y = g y) ->
  derivable_pt_lim f x l1 -> derivable_pt_lim g x l1.
Proof.
  intros Hd E H eps Heps. destruct (H eps Heps) as [d Hd'].
  assert (Hm : 0 < Rmin d delta) by (apply Rmin_pos; [apply cond_pos | exact Hd]).
  exists (mkposreal _ Hm). simpl. intros h Hh1 Hh2.
  rewrite <- (E (x + h)), <- (E x).
  - apply Hd'; [exact Hh1 |]. eapply Rlt_le_trans; [exact Hh2 | apply Rmin_l].
  - replace (x - x) with 0 by ring. rewrite Rabs_R0. exact Hd.
  - replace (x + h - x) with h by ring.
    eapply Rlt_le_trans; [exact Hh2 | apply Rmin_r].
Qed.

End DerivRulesMore.

(** The rules above leave their side conditions as goals. *)
Ltac dl_rules_pos :=
  lazymatch goal with
  | |- derivable_pt_lim (fun _ => ?c) ?x _ => apply (dl_const x c)
  | |- derivable_pt_lim (fun y => y) _ _ => apply dl_id
  | |- derivable_pt_lim (fun y => @?a y + @?b y) ?x _ =>
      eapply (dl_plus a b x); dl_rules_pos
  | |- derivable_pt_lim (fun y => @?a y - @?b y) ?x _ =>
      eapply (dl_minus a b x); dl_rules_pos
  | |- derivable_pt_lim (fun y => - @?a y) ?x _ =>
      eapply (dl_opp a x); dl_rules_pos
  | |- derivable_pt_lim (fun y => @?a y * @?b y) ?x _ =>
      eapply (dl_mult a b x); dl_rules_pos
  | |- derivable_pt_lim (fun y => @?a y / @?b y) ?x _ =>
      eapply (dl_div a b x); [dl_rules_pos | dl_rules_pos | ]
  | |- derivable_pt_lim (fun y => exp (@?a y)) ?x _ =>
      eapply (dl_exp a x); dl_rules_pos
  | |- derivable_pt_lim (fun y => ln (@?a y)) ?x _ =>
      eapply (dl_ln a x); [dl_rules_pos | ]
  | |- derivable_pt_lim (fun y => sqrt (@?a y)) ?x _ =>
      eapply (dl_sqrt a x); [dl_rules_pos | ]
  | |- derivable_pt_lim (fun y => @?a y ^ ?n) ?x _ =>
      eapply (dl_pow a x _ n); dl_rules_pos
  | |- derivable_pt_lim (fun y => ?F (@?a y)) ?x _ =>
      eapply (dl_comp F a x); [dl_rules_pos | solve [eauto with deriv_db]]
  | |- derivable_pt_lim ?F ?x _ => solve [eauto with deriv_db]
  end.

Lemma std_pdf_even (x : R) : std_pdf (- x) = std_pdf x.
Proof. rewrite !std_pdf_eq, gauss_even. reflexivity. Qed.

(** ** The price as a function of one parameter

    The spot, the discounted strike, [d1] and the total volatility
    [a = sigma * sqrt T] all move with the parameter.  At a point where
    spot times density at [d1] equals discounted strike times density at
    [d2], the terms coming from [d1] cancel. *)

Section ParamDeriv.

Variables (Sp Kp d a : R -> R) (p S' K' d' a' : R).
Hypothesis HSp : derivable_pt_lim Sp p S'.
Hypothesis HKp : derivable_pt_lim Kp p K'.
Hypothesis Hd : derivable_pt_lim d p d'.
Hypothesis Ha : derivable_pt_lim a p a'.
Hypothesis balance : Sp p * std_pdf (d p) = Kp p * std_pdf (d p - a p).

Lemma call_param_deriv :
  derivable_pt_lim
    (fun y => Sp y * std_cdf (d y) - Kp y * std_cdf (d y - a y)) p
    (S' * std_cdf (d p) - K' * std_cdf (d p - a p)
     + Kp p * std_pdf (d p - a p) * a').
Proof.
  dl_auto.
  transitivity
    (S' * std_cdf (d p) - K' * std_cdf (d p - a p)
     + Sp p * std_pdf (d p) * d'
     - Kp p * std_pdf (d p - a p) * (d' - a')); [ring |].
  rewrite balance. ring.
Qed.

Lemma put_param_deriv :
  derivable_pt_lim
    (fun y => Kp y * std_cdf (- (d y - a y)) - Sp y * std_cdf (- d y)) p
    (K' * std_cdf (- (d p - a p)) - S' * std_cdf (- d p)
     + Kp p * std_pdf (d p - a p) * a').
Proof.
  dl_auto. rewrite !std_pdf_even.
  transitivity
    (K' * std_cdf (- (d p - a p)) - S' * std_cdf (- d p)
     + Sp p * std_pdf (d p) * d'
     - Kp p * std_pdf (d p - a p) * (d' - a')); [ring |].
  rewrite balance. ring.
Qed.

End ParamDeriv.

(** The value a call returns; [0] stands for a raised error. *)
Definition returned (x : result) : R :=
  match x with
  | Return v => v
  | Raise _ => 0
  end.

Lemma pdf_balance (S K T r sigma : R) :
  0 < S -> 0 < K -> 0 < T -> 0 < sigma ->
  S * std_pdf (d1_formula S K T r sigma)
  = K * exp (- r * T)
    * std_pdf (d1_formula S K T r sigma - sigma * sqrt T).
Proof.
  intros HS HK HT Hs. rewrite std_pdf_shift.
  assert (E := spot_of_d1 S K T r sigma HS HK HT Hs).
  set (d := d1_formula S K T r sigma) in *. clearbody d.
  rewrite E at 1. ring.
Qed.

(** ** The Greeks on the general branch *)

Lemma delta_general (S K T r sigma : R) :
  0 < T -> 0 < sigma ->
  delta S K T r sigma "call" = Return (std_cdf (d1_formula S K T r sigma)) /\
  delta S K T r sigma "put" = Return (std_cdf (d1_formula S K T r sigma) - 1).
Proof.
  intros HT Hs. unfold delta.
  rewrite (Rleb_false T 0 HT), (d1_d2_general S K T r sigma HT Hs).
  split; reflexivity.
Qed.

Lemma gamma_general (S K T r sigma : R) :
  0 < T -> 0 < sigma ->
  gamma S K T r sigma =
    Return (std_pdf (d1_formula S K T r sigma) / (S * sigma * sqrt T)).
Proof.
  intros HT Hs. unfold gamma.
  rewrite (Rleb_false T 0 HT), (Rleb_false sigma 0 Hs).
  rewrite (d1_d2_general S K T r sigma HT Hs). reflexivity.
Qed.

Lemma vega_general (S K T r sigma : R) :
  0 < T -> 0 < sigma ->
  vega S K T r sigma =
    Return (S * std_pdf (d1_formula S K T r sigma) * sqrt T).
Proof.
  intros HT Hs. unfold vega.
  rewrite (Rleb_false T 0 HT), (Rleb_false sigma 0 Hs).
  rewrite (d1_d2_general S K T r sigma HT Hs). reflexivity.
Qed.

Lemma theta_general (S K T r sigma : R) :
  0 < T -> 0 < sigma ->
  theta S K T r sigma "call" =
    Return ((- (S * std_pdf (d1_formula S K T r sigma) * sigma) / (2 * sqrt T)
             - r * K * exp (- r * T) * std_cdf (d2_formula S K T r sigma))
            / 365) /\
  theta S K T r sigma "put" =
    Return ((- (S * std_pdf (d1_formula S K T r sigma) * sigma) / (2 * sqrt T)
             + r * K * exp (- r * T) * std_cdf (- d2_formula S K T r sigma))
            / 365).
Proof.
  intros HT Hs. unfold theta.
  rewrite (Rleb_false T 0 HT), (d1_d2_general S K T r sigma HT Hs).
  split; reflexivity.
Qed.

Lemma rho_general (S K T r sigma : R) :
  0 < T -> 0 < sigma ->
  rho S K T r sigma "call" =
    Return (K * T * exp (- r * T) * std_cdf (d2_formula S K T r sigma) / 100) /\
  rho S K T r sigma "put" =
    Return (- K * T * exp (- r * T) * std_cdf (- d2_formula S K T r sigma)
            / 100).
Proof.
  intros HT Hs. unfold rho.
  rewrite (Rleb_false T 0 HT), (d1_d2_general S K T r sigma HT Hs).
  split; reflexivity.
Qed.

(** ** How [d1] moves with each parameter *)

Ltac pos_side :=
  try apply Rgt_not_eq;
  repeat first
    [ assumption
    | apply Rdiv_lt_0_compat
    | apply Rinv_0_lt_compat
    | apply Rmult_lt_0_compat
    | apply sqrt_lt_R0 ].

Lemma d1_deriv_spot (S K T r sigma : R) :
  0 < S -> 0 < K -> 0 < T -> 0 < sigma ->
  derivable_pt_lim (fun s => d1_formula s K T r sigma) S
    (/ (S * sigma * sqrt T)).
Proof.
  intros HS HK HT Hs. assert (Hq : 0 < sqrt T) by (apply sqrt_lt_R0, HT).
  unfold d1_formula. eapply dl_value; [dl_rules_pos; pos_side | ].
  unfold Rsqr. field. repeat split; apply Rgt_not_eq; assumption.
Qed.

Lemma d1_derivable_vol (S K T r sigma : R) :
  0 < S -> 0 < K -> 0 < T -> 0 < sigma ->
  exists l, derivable_pt_lim (fun v => d1_formula S K T r v) sigma l.
Proof.
  intros HS HK HT Hs. assert (Hq : 0 < sqrt T) by (apply sqrt_lt_R0, HT).
  unfold d1_formula. eexists. dl_rules_pos; pos_side.
Qed.

Lemma d1_derivable_rate (S K T r sigma : R) :
  0 < S -> 0 < K -> 0 < T -> 0 < sigma ->
  exists l, derivable_pt_lim (fun x => d1_formula S K T x sigma) r l.
Proof.
  intros HS HK HT Hs. assert (Hq : 0 < sqrt T) by (apply sqrt_lt_R0, HT).
  unfold d1_formula. eexists. dl_rules_pos; pos_side.
Qed.

Lemma d1_derivable_time (S K T r sigma : R) :
  0 < S -> 0 < K -> 0 < T -> 0 < sigma ->
  exists l, derivable_pt_lim (fun t => d1_formula S K t r sigma) T l.
Proof.
  intros HS HK HT Hs. assert (Hq : 0 < sqrt T) by (apply sqrt_lt_R0, HT).
  unfold d1_formula. eexists. dl_rules_pos; pos_side.
Qed.

Lemma near_pos (x y : R) : 0 < x -> Rabs (y - x) < x -> 0 < y.
Proof. intros Hx H. apply Rabs_def2 in H. lra. Qed.

(** ** Each Greek is a derivative of the price *)

Section PriceDerivatives.

Variables S K T r sigma : R.
Hypothesis HS : 0 < S.
Hypothesis HK : 0 < K.
Hypothesis HT : 0 < T.
Hypothesis Hs : 0 < sigma.

Lemma call_spot_deriv :
  derivable_pt_lim
    (fun s => returned (black_scholes_price s K T r sigma "call")) S
    (std_cdf (d1_formula S K T r sigma)).
Proof.
  assert (Hd := d1_deriv_spot S K T r sigma HS HK HT Hs).
  assert (Hb := pdf_balance S K T r sigma HS HK HT Hs).
  apply (dl_ext
           (fun s => s * std_cdf (d1_formula s K T r sigma)
                     - K * exp (- r * T)
                       * std_cdf (d1_formula s K T r sigma - sigma * sqrt T))).
  { intros y. rewrite (price_call_general y K T r sigma HT Hs). reflexivity. }
  eapply dl_value.
  { eapply (call_param_deriv (fun s => s) (fun _ => K * exp (- r * T))
              (fun s => d1_formula s K T r sigma) (fun _ => sigma * sqrt T)
              S 1 0 _ 0);
      [apply dl_id | apply dl_const | exact Hd | apply dl_const | exact Hb]. }
  ring.
Qed.

Lemma put_spot_deriv :
  derivable_pt_lim
    (fun s => returned (black_scholes_price s K T r sigma "put")) S
    (std_cdf (d1_formula S K T r sigma) - 1).
Proof.
  assert (Hd := d1_deriv_spot S K T r sigma HS HK HT Hs).
  assert (Hb := pdf_balance S K T r sigma HS HK HT Hs).
  apply (dl_ext
           (fun s => K * exp (- r * T)
                     * std_cdf (- (d1_formula s K T r sigma - sigma * sqrt T))
                     - s * std_cdf (- d1_formula s K T r sigma))).
  { intros y. rewrite (price_put_general y K T r sigma HT Hs). reflexivity. }
  eapply dl_value.
  { eapply (put_param_deriv (fun s => s) (fun _ => K * exp (- r * T))
              (fun s => d1_formula s K T r sigma) (fun _ => sigma * sqrt T)
              S 1 0 _ 0);
      [apply dl_id | apply dl_const | exact Hd | apply dl_const | exact Hb]. }
  rewrite !std_cdf_sym. ring.
Qed.

Lemma delta_call_spot_deriv :
  derivable_pt_lim (fun s => returned (delta s K T r sigma "call")) S
    (std_pdf (d1_formula S K T r sigma) / (S * sigma * sqrt T)).
Proof.
  assert (Hd := d1_deriv_spot S K T r sigma HS HK HT Hs).
  assert (Hq : 0 < sqrt T) by (apply sqrt_lt_R0, HT).
  apply (dl_ext (fun s => std_cdf (d1_formula s K T r sigma))).
  { intros y. destruct (delta_general y K T r sigma HT Hs) as [-> _].
    reflexivity. }
  eapply dl_value.
  { eapply (dl_comp std_cdf (fun s => d1_formula s K T r sigma) S _ _ Hd).
    apply std_cdf_deriv. }
  field. repeat split; apply Rgt_not_eq; assumption.
Qed.

Lemma delta_put_spot_deriv :
  derivable_pt_lim (fun s => returned (delta s K T r sigma "put")) S
    (std_pdf (d1_formula S K T r sigma) / (S * sigma * sqrt T)).
Proof.
  assert (Hd := d1_deriv_spot S K T r sigma HS HK HT Hs).
  assert (Hq : 0 < sqrt T) by (apply sqrt_lt_R0, HT).
  apply (dl_ext (fun s => std_cdf (d1_formula s K T r sigma) - 1)).
  { intros y. destruct (delta_general y K T r sigma HT Hs) as [_ ->].
    reflexivity. }
  eapply dl_value.
  { apply dl_minus; [| apply dl_const].
    eapply (dl_comp std_cdf (fun s => d1_formula s K T r sigma) S _ _ Hd).
    apply std_cdf_deriv. }
  field. repeat split; apply Rgt_not_eq; assumption.
Qed.

Lemma call_vol_deriv :
  derivable_pt_lim
    (fun x => returned (black_scholes_price S K T r x "call")) sigma
    (S * std_pdf (d1_formula S K T r sigma) * sqrt T).
Proof.
  destruct (d1_derivable_vol S K T r sigma HS HK HT Hs) as [l Hd].
  assert (Hb := pdf_balance S K T r sigma HS HK HT Hs).
  assert (Ha : derivable_pt_lim (fun x => x * sqrt T) sigma (sqrt T)).
  { eapply dl_value; [dl_rules_pos | ring]. }
  apply (dl_ext_loc
           (fun x => S * std_cdf (d1_formula S K T r x)
                     - K * exp (- r * T)
                       * std_cdf (d1_formula S K T r x - x * sqrt T))
           _ _ _ sigma Hs).
  { intros y Hy. assert (Hy0 := near_pos sigma y Hs Hy).
    rewrite (price_call_general S K T r y HT Hy0). reflexivity. }
  eapply dl_value.
  { eapply (call_param_deriv (fun _ => S) (fun _ => K * exp (- r * T))
              (fun x => d1_formula S K T r x) (fun x => x * sqrt T)
              sigma 0 0);
      [apply dl_const | apply dl_const | exact Hd | exact Ha | exact Hb]. }
  rewrite <- Hb. ring.
Qed.

Lemma put_vol_deriv :
  derivable_pt_lim
    (fun x => returned (black_scholes_price S K T r x "put")) sigma
    (S * std_pdf (d1_formula S K T r sigma) * sqrt T).
Proof.
  destruct (d1_derivable_vol S K T r sigma HS HK HT Hs) as [l Hd].
  assert (Hb := pdf_balance S K T r sigma HS HK HT Hs).
  assert (Ha : derivable_pt_lim (fun x => x * sqrt T) sigma (sqrt T)).
  { eapply dl_value; [dl_rules_pos | ring]. }
  apply (dl_ext_loc
           (fun x => K * exp (- r * T)
                     * std_cdf (- (d1_formula S K T r x - x * sqrt T))
                     - S * std_cdf (- d1_formula S K T r x))
           _ _ _ sigma Hs).
  { intros y Hy. assert (Hy0 := near_pos sigma y Hs Hy).
    rewrite (price_put_general S K T r y HT Hy0). reflexivity. }
  eapply dl_value.
  { eapply (put_param_deriv (fun _ => S) (fun _ => K * exp (- r * T))
              (fun x => d1_formula S K T r x) (fun x => x * sqrt T)
              sigma 0 0);
      [apply dl_const | apply dl_const | exact Hd | exact Ha | exact Hb]. }
  rewrite <- Hb. ring.
Qed.

Lemma discount_rate_deriv :
  derivable_pt_lim (fun x => K * exp (- x * T)) r (- T * (K * exp (- r * T))).
Proof. eapply dl_value; [dl_rules_pos | ring]. Qed.

Lemma call_rate_deriv :
  derivable_pt_lim
    (fun x => returned (black_scholes_price S K T x sigma "call")) r
    (K * T * exp (- r * T) * std_cdf (d2_formula S K T r sigma)).
Proof.
  destruct (d1_derivable_rate S K T r sigma HS HK HT Hs) as [l Hd].
  assert (Hb := pdf_balance S K T r sigma HS HK HT Hs).
  apply (dl_ext
           (fun x => S * std_cdf (d1_formula S K T x sigma)
                     - K * exp (- x * T)
                       * std_cdf (d1_formula S K T x sigma - sigma * sqrt T))).
  { intros y. rewrite (price_call_general S K T y sigma HT Hs). reflexivity. }
  eapply dl_value.
  { eapply (call_param_deriv (fun _ => S) (fun x => K * exp (- x * T))
              (fun x => d1_formula S K T x sigma) (fun _ => sigma * sqrt T)
              r 0 _ _ 0);
      [apply dl_const | exact discount_rate_deriv | exact Hd
      | apply dl_const | exact Hb]. }
  unfold d2_formula. ring.
Qed.

Lemma put_rate_deriv :
  derivable_pt_lim
    (fun x => returned (black_scholes_price S K T x sigma "put")) r
    (- K * T * exp (- r * T) * std_cdf (- d2_formula S K T r sigma)).
Proof.
  destruct (d1_derivable_rate S K T r sigma HS HK HT Hs) as [l Hd].
  assert (Hb := pdf_balance S K T r sigma HS HK HT Hs).
  apply (dl_ext
           (fun x => K * exp (- x * T)
                     * std_cdf (- (d1_formula S K T x sigma - sigma * sqrt T))
                     - S * std_cdf (- d1_formula S K T x sigma))).
  { intros y. rewrite (price_put_general S K T y sigma HT Hs). reflexivity. }
  eapply dl_value.
  { eapply (put_param_deriv (fun _ => S) (fun x => K * exp (- x * T))
              (fun x => d1_formula S K T x sigma) (fun _ => sigma * sqrt T)
              r 0 _ _ 0);
      [apply dl_const | exact discount_rate_deriv | exact Hd
      | apply dl_const | exact Hb]. }
  unfold d2_formula. ring.
Qed.

Lemma discount_time_deriv :
  derivable_pt_lim (fun t => K * exp (- r * t)) T (- r * (K * exp (- r * T))).
Proof. eapply dl_value; [dl_rules_pos | ring]. Qed.

Lemma total_vol_time_deriv :
  derivable_pt_lim (fun t => sigma * sqrt t) T (sigma / (2 * sqrt T)).
Proof.
  assert (Hq : 0 < sqrt T) by (apply sqrt_lt_R0, HT).
  eapply dl_value; [dl_rules_pos; pos_side | field; lra].
Qed.

Lemma call_time_deriv :
  derivable_pt_lim
    (fun t => returned (black_scholes_price S K t r sigma "call")) T
    (S * std_pdf (d1_formula S K T r sigma) * sigma / (2 * sqrt T)
     + r * K * exp (- r * T) * std_cdf (d2_formula S K T r sigma)).
Proof.
  destruct (d1_derivable_time S K T r sigma HS HK HT Hs) as [l Hd].
  assert (Hb := pdf_balance S K T r sigma HS HK HT Hs).
  assert (Hq : 0 < sqrt T) by (apply sqrt_lt_R0, HT).
  apply (dl_ext_loc
           (fun t => S * std_cdf (d1_formula S K t r sigma)
                     - K * exp (- r * t)
                       * std_cdf (d1_formula S K t r sigma - sigma * sqrt t))
           _ _ _ T HT).
  { intros y Hy. assert (Hy0 := near_pos T y HT Hy).
    rewrite (price_call_general S K y r sigma Hy0 Hs). reflexivity. }
  eapply dl_value.
  { eapply (call_param_deriv (fun _ => S) (fun t => K * exp (- r * t))
              (fun t => d1_formula S K t r sigma) (fun t => sigma * sqrt t)
              T 0);
      [apply dl_const | exact discount_time_deriv | exact Hd
      | exact total_vol_time_deriv | exact Hb]. }
  rewrite <- Hb. unfold d2_formula. field. lra.
Qed.

Lemma put_time_deriv :
  derivable_pt_lim
    (fun t => returned (black_scholes_price S K t r sigma "put")) T
    (S * std_pdf (d1_formula S K T r sigma) * sigma / (2 * sqrt T)
     - r * K * exp (- r * T) * std_cdf (- d2_formula S K T r sigma)).
Proof.
  destruct (d1_derivable_time S K T r sigma HS HK HT Hs) as [l Hd].
  assert (Hb := pdf_balance S K T r sigma HS HK HT Hs).
  assert (Hq : 0 < sqrt T) by (apply sqrt_lt_R0, HT).
  apply (dl_ext_loc
           (fun t => K * exp (- r * t)
                     * std_cdf (- (d1_formula S K t r sigma - sigma * sqrt t))
                     - S * std_cdf (- d1_formula S K t r sigma))
           _ _ _ T HT).
  { intros y Hy. assert (Hy0 := near_pos T y HT Hy).
    rewrite (price_put_general S K y r sigma Hy0 Hs). reflexivity. }
  eapply dl_value.
  { eapply (put_param_deriv (fun _ => S) (fun t => K * exp (- r * t))
              (fun t => d1_formula S K t r sigma) (fun t => sigma * sqrt t)
              T 0);
      [apply dl_const | exact discount_time_deriv | exact Hd
      | exact total_vol_time_deriv | exact Hb]. }
  rewrite <- Hb. unfold d2_formula. field. lra.
Qed.

End PriceDerivatives.

(** X1. Before expiry and with volatility, the delta the code returns is the
    derivative of the price it returns with respect to the spot, for calls
    and for puts. *)
Theorem delta_is_spot_derivative (S K T r sigma : R) :
  0 < S -> 0 < K -> 0 < T -> 0 < sigma ->
  (exists dc,
     delta S K T r sigma "call" = Return dc /\
     derivable_pt_lim
       (fun s => returned (black_scholes_price s K T r sigma "call")) S dc) /\
  (exists dp,
     delta S K T r sigma "put" = Return dp /\
     derivable_pt_lim
       (fun s => returned (black_scholes_price s K T r sigma "put")) S dp).
Proof.
  intros HS HK HT Hs.
  destruct (delta_general S K T r sigma HT Hs) as [Ec Ep].
  split; eexists; (split; [eassumption |]).
  - apply call_spot_deriv; assumption.
  - apply put_spot_deriv; assumption.
Qed.

Lemma delta_is_spot_derivative_witness :
  0 < 100 /\ 0 < 105 /\ 0 < 1 /\ 0 < 0.2 /\
  exists dc,
    delta 100 105 1 0.05 0.2 "call" = Return dc /\
    derivable_pt_lim
      (fun s => returned (black_scholes_price s 105 1 0.05 0.2 "call")) 100 dc.
Proof.
  repeat (split; [lra |]).
  destruct (delta_is_spot_derivative 100 105 1 0.05 0.2) as [H _];
    [lra | lra | lra | lra | exact H].
Defined.

(** X2. Before expiry and with volatility, the gamma the code returns is the
    derivative with respect to the spot of the delta it returns, the same
    for calls and puts. *)
Theorem gamma_is_delta_derivative (S K T r sigma : R) :
  0 < S -> 0 < K -> 0 < T -> 0 < sigma ->
  exists g,
    gamma S K T r sigma = Return g /\
    derivable_pt_lim (fun s => returned (delta s K T r sigma "call")) S g /\
    derivable_pt_lim (fun s => returned (delta s K T r sigma "put")) S g.
Proof.
  intros HS HK HT Hs.
  eexists. split; [apply gamma_general; assumption |]. split.
  - apply delta_call_spot_deriv; assumption.
  - apply delta_put_spot_deriv; assumption.
Qed.

Lemma gamma_is_delta_derivative_witness :
  0 < 100 /\ 0 < 105 /\ 0 < 1 /\ 0 < 0.2 /\
  exists g,
    gamma 100 105 1 0.05 0.2 = Return g /\
    derivable_pt_lim (fun s => returned (delta s 105 1 0.05 0.2 "call")) 100 g.
Proof.
  repeat (split; [lra |]).
  destruct (gamma_is_delta_derivative 100 105 1 0.05 0.2) as (g & Hg & Hc & _);
    [lra | lra | lra | lra |].
  exists g. exact (conj Hg Hc).
Defined.

(** X3. Before expiry and with volatility, the vega the code returns is the
    derivative of the price with respect to the volatility, for calls and
    for puts. *)
Theorem vega_is_volatility_derivative (S K T r sigma : R) :
  0 < S -> 0 < K -> 0 < T -> 0 < sigma ->
  exists v,
    vega S K T r sigma = Return v /\
    derivable_pt_lim
      (fun x => returned (black_scholes_price S K T r x "call")) sigma v /\
    derivable_pt_lim
      (fun x => returned (black_scholes_price S K T r x "put")) sigma v.
Proof.
  intros HS HK HT Hs.
  eexists. split; [apply vega_general; assumption |]. split.
  - apply call_vol_deriv; assumption.
  - apply put_vol_deriv; assumption.
Qed.

Lemma vega_is_volatility_derivative_witness :
  0 < 100 /\ 0 < 105 /\ 0 < 1 /\ 0 < 0.2 /\
  exists v,
    vega 100 105 1 0.05 0.2 = Return v /\
    derivable_pt_lim
      (fun x => returned (black_scholes_price 100 105 1 0.05 x "call")) 0.2 v.
Proof.
  repeat (split; [lra |]).
  destruct (vega_is_volatility_derivative 100 105 1 0.05 0.2)
    as (v & Hv & Hc & _); [lra | lra | lra | lra |].
  exists v. exact (conj Hv Hc).
Defined.

(** X4. Before expiry and with volatility, the rho the code returns is one
    hundredth of the derivative of the price with respect to the rate, for
    calls and for puts. *)
Theorem rho_is_rate_derivative (S K T r sigma : R) :
  0 < S -> 0 < K -> 0 < T -> 0 < sigma ->
  (exists rc,
     rho S K T r sigma "call" = Return rc /\
     derivable_pt_lim
       (fun x => returned (black_scholes_price S K T x sigma "call")) r
       (100 * rc)) /\
  (exists rp,
     rho S K T r sigma "put" = Return rp /\
     derivable_pt_lim
       (fun x => returned (black_scholes_price S K T x sigma "put")) r
       (100 * rp)).
Proof.
  intros HS HK HT Hs.
  destruct (rho_general S K T r sigma HT Hs) as [Ec Ep].
  split; eexists; (split; [eassumption |]).
  - eapply dl_value; [apply call_rate_deriv; assumption | field].
  - eapply dl_value; [apply put_rate_deriv; assumption | field].
Qed.

Lemma rho_is_rate_derivative_witness :
  0 < 100 /\ 0 < 105 /\ 0 < 1 /\ 0 < 0.2 /\
  exists rc,
    rho 100 105 1 0.05 0.2 "call" = Return rc /\
    derivable_pt_lim
      (fun x => returned (black_scholes_price 100 105 1 x 0.2 "call")) 0.05
      (100 * rc).
Proof.
  repeat (split; [lra |]).
  destruct (rho_is_rate_derivative 100 105 1 0.05 0.2) as [H _];
    [lra | lra | lra | lra | exact H].
Defined.

(** X5. Before expiry and with volatility, the theta the code returns is
    minus the derivative of the price with respect to the time to expiry,
    divided by 365, for calls and for puts. *)
Theorem theta_is_time_derivative (S K T r sigma : R) :
  0 < S -> 0 < K -> 0 < T -> 0 < sigma ->
  (exists tc,
     theta S K T r sigma "call" = Return tc /\
     derivable_pt_lim
       (fun t => returned (black_scholes_price S K t r sigma "call")) T
       (- (365 * tc))) /\
  (exists tp,
     theta S K T r sigma "put" = Return tp /\
     derivable_pt_lim
       (fun t => returned (black_scholes_price S K t r sigma "put")) T
       (- (365 * tp))).
Proof.
  intros HS HK HT Hs.
  destruct (theta_general S K T r sigma HT Hs) as [Ec Ep].
  assert (Hq : 0 < sqrt T) by (apply sqrt_lt_R0, HT).
  split; eexists; (split; [eassumption |]).
  - eapply dl_value; [apply call_time_deriv; assumption | field; lra].
  - eapply dl_value; [apply put_time_deriv; assumption | field; lra].
Qed.

Lemma theta_is_time_derivative_witness :
  0 < 100 /\ 0 < 105 /\ 0 < 1 /\ 0 < 0.2 /\
  exists tc,
    theta 100 105 1 0.05 0.2 "call" = Return tc /\
    derivable_pt_lim
      (fun t => returned (black_scholes_price 100 105 t 0.05 0.2 "call")) 1
      (- (365 * tc)).
Proof.
  repeat (split; [lra |]).
  destruct (theta_is_time_derivative 100 105 1 0.05 0.2) as [H _];
    [lra | lra | lra | lra | exact H].
Defined.

(** ** What the signs of the Greeks mean for the price *)

Lemma price_returns (S K T r sigma : R) :
  0 < T -> 0 < sigma ->
  black_scholes_price S K T r sigma "call"
  = Return (returned (black_scholes_price S K T r sigma "call")) /\
  black_scholes_price S K T r sigma "put"
  = Return (returned (black_scholes_price S K T r sigma "put")).
Proof.
  intros HT Hs.
  rewrite (price_call_general S K T r sigma HT Hs).
  rewrite (price_put_general S K T r sigma HT Hs). split; reflexivity.
Qed.

Lemma vega_value_nonneg (S K T r sigma : R) :
  0 < S -> 0 <= S * std_pdf (d1_formula S K T r sigma) * sqrt T.
Proof.
  intros HS. apply Rmult_le_pos; [| apply sqrt_pos].
  apply Rmult_le_pos; [lra | apply Rlt_le, std_pdf_pos].
Qed.

(** X6. More volatility never lowers the price: for S, K, T > 0 and
    0 < sigma1 <= sigma2 the call and the put are worth at sigma2 at least
    what they are worth at sigma1. *)
Theorem price_monotone_in_volatility (S K T r sigma1 sigma2 : R) :
  0 < S -> 0 < K -> 0 < T -> 0 < sigma1 -> sigma1 <= sigma2 ->
  (exists c1 c2,
     black_scholes_price S K T r sigma1 "call" = Return c1 /\
     black_scholes_price S K T r sigma2 "call" = Return c2 /\ c1 <= c2) /\
  (exists p1 p2,
     black_scholes_price S K T r sigma1 "put" = Return p1 /\
     black_scholes_price S K T r sigma2 "put" = Return p2 /\ p1 <= p2).
Proof.
  intros HS HK HT H1 H12. assert (H2 : 0 < sigma2) by lra.
  destruct (price_returns S K T r sigma1 HT H1) as [Ec1 Ep1].
  destruct (price_returns S K T r sigma2 HT H2) as [Ec2 Ep2].
  split; do 2 eexists; (split; [eassumption |]); (split; [eassumption |]).
  - apply (deriv_nonneg_incr_on sigma1 sigma2
             (fun x => returned (black_scholes_price S K T r x "call"))
             (fun x => S * std_pdf (d1_formula S K T r x) * sqrt T));
      try lra.
    + intros x Hx. apply call_vol_deriv; lra.
    + intros x _. apply vega_value_nonneg, HS.
  - apply (deriv_nonneg_incr_on sigma1 sigma2
             (fun x => returned (black_scholes_price S K T r x "put"))
             (fun x => S * std_pdf (d1_formula S K T r x) * sqrt T));
      try lra.
    + intros x Hx. apply put_vol_deriv; lra.
    + intros x _. apply vega_value_nonneg, HS.
Qed.

Lemma price_monotone_in_volatility_witness :
  0 < 100 /\ 0 < 105 /\ 0 < 1 /\ 0 < 0.2 /\ 0.2 <= 0.3 /\
  exists c1 c2,
    black_scholes_price 100 105 1 0.05 0.2 "call" = Return c1 /\
    black_scholes_price 100 105 1 0.05 0.3 "call" = Return c2 /\ c1 <= c2.
Proof.
  repeat (split; [lra |]).
  destruct (price_monotone_in_volatility 100 105 1 0.05 0.2 0.3) as [H _];
    [lra | lra | lra | lra | lra | exact H].
Defined.

(** X7. A higher rate never lowers a call and never raises a put: for
    S, K, T, sigma > 0 and r1 <= r2 the call at r2 is worth at least the call
    at r1 and the put at r2 at most the put at r1. *)
Theorem price_monotone_in_rate (S K T r1 r2 sigma : R) :
  0 < S -> 0 < K -> 0 < T -> 0 < sigma -> r1 <= r2 ->
  (exists c1 c2,
     black_scholes_price S K T r1 sigma "call" = Return c1 /\
     black_scholes_price S K T r2 sigma "call" = Return c2 /\ c1 <= c2) /\
  (exists p1 p2,
     black_scholes_price S K T r1 sigma "put" = Return p1 /\
     black_scholes_price S K T r2 sigma "put" = Return p2 /\ p2 <= p1).
Proof.
  intros HS HK HT Hs H12.
  destruct (price_returns S K T r1 sigma HT Hs) as [Ec1 Ep1].
  destruct (price_returns S K T r2 sigma HT Hs) as [Ec2 Ep2].
  split; do 2 eexists; (split; [eassumption |]); (split; [eassumption |]).
  - apply (deriv_nonneg_incr
             (fun x => returned (black_scholes_price S K T x sigma "call"))
             (fun x => K * T * exp (- x * T)
                       * std_cdf (d2_formula S K T x sigma))); [| | exact H12].
    + intros x. apply call_rate_deriv; assumption.
    + intros x. apply Rmult_le_pos; [| apply std_cdf_ge_0].
      apply Rmult_le_pos; [nra | apply Rlt_le, exp_pos].
  - apply (deriv_nonpos_decr
             (fun x => returned (black_scholes_price S K T x sigma "put"))
             (fun x => - K * T * exp (- x * T)
                       * std_cdf (- d2_formula S K T x sigma)));
      [| | exact H12].
    + intros x. apply put_rate_deriv; assumption.
    + intros x.
      assert (0 <= K * T * exp (- x * T)
                   * std_cdf (- d2_formula S K T x sigma)); [| lra].
      apply Rmult_le_pos; [| apply std_cdf_ge_0].
      apply Rmult_le_pos; [nra | apply Rlt_le, exp_pos].
Qed.

Lemma price_monotone_in_rate_witness :
  0 < 100 /\ 0 < 105 /\ 0 < 1 /\ 0 < 0.2 /\ 0.05 <= 0.06 /\
  exists c1 c2,
    black_scholes_price 100 105 1 0.05 0.2 "call" = Return c1 /\
    black_scholes_price 100 105 1 0.06 0.2 "call" = Return c2 /\ c1 <= c2.
Proof.
  repeat (split; [lra |]).
  destruct (price_monotone_in_rate 100 105 1 0.05 0.06 0.2) as [H _];
    [lra | lra | lra | lra | lra | exact H].
Defined.

(** X8. With a non-negative rate a call never loses value when the time to
    expiry grows: for S, K, sigma > 0, r >= 0 and 0 < T1 <= T2 the call at T2
    is worth at least the call at T1. *)
Theorem call_monotone_in_time (S K T1 T2 r sigma : R) :
  0 < S -> 0 < K -> 0 < sigma -> 0 <= r -> 0 < T1 -> T1 <= T2 ->
  exists c1 c2,
    black_scholes_price S K T1 r sigma "call" = Return c1 /\
    black_scholes_price S K T2 r sigma "call" = Return c2 /\ c1 <= c2.
Proof.
  intros HS HK Hs Hr H1 H12. assert (H2 : 0 < T2) by lra.
  destruct (price_returns S K T1 r sigma H1 Hs) as [Ec1 _].
  destruct (price_returns S K T2 r sigma H2 Hs) as [Ec2 _].
  do 2 eexists. split; [eassumption |]. split; [eassumption |].
  apply (deriv_nonneg_incr_on T1 T2
           (fun t => returned (black_scholes_price S K t r sigma "call"))
           (fun t => S * std_pdf (d1_formula S K t r sigma) * sigma
                     / (2 * sqrt t)
                     + r * K * exp (- r * t)
                       * std_cdf (d2_formula S K t r sigma))); try lra.
  - intros t Ht. apply call_time_deriv; lra.
  - intros t Ht. assert (Hq : 0 < sqrt t) by (apply sqrt_lt_R0; lra).
    apply Rplus_le_le_0_compat.
    + apply Rmult_le_pos; [| apply Rlt_le, Rinv_0_lt_compat; lra].
      apply Rmult_le_pos; [| lra].
      apply Rmult_le_pos; [lra | apply Rlt_le, std_pdf_pos].
    + apply Rmult_le_pos; [| apply std_cdf_ge_0].
      apply Rmult_le_pos; [nra | apply Rlt_le, exp_pos].
Qed.

Lemma call_monotone_in_time_witness :
  0 < 100 /\ 0 < 105 /\ 0 < 0.2 /\ 0 <= 0.05 /\ 0 < 1 /\ 1 <= 2 /\
  exists c1 c2,
    black_scholes_price 100 105 1 0.05 0.2 "call" = Return c1 /\
    black_scholes_price 100 105 2 0.05 0.2 "call" = Return c2 /\ c1 <= c2.
Proof.
  repeat (split; [lra |]).
  apply (call_monotone_in_time 100 105 1 2 0.05 0.2); lra.
Defined.

(** ** The price as a function of the strike *)

Lemma d1_derivable_strike (S K T r sigma : R) :
  0 < S -> 0 < K -> 0 < T -> 0 < sigma ->
  exists l, derivable_pt_lim (fun k => d1_formula S k T r sigma) K l.
Proof.
  intros HS HK HT Hs. assert (Hq : 0 < sqrt T) by (apply sqrt_lt_R0, HT).
  unfold d1_formula. eexists. dl_rules_pos; pos_side.
Qed.

Lemma discount_strike_deriv (K T r : R) :
  derivable_pt_lim (fun k => k * exp (- r * T)) K (exp (- r * T)).
Proof. eapply dl_value; [dl_rules_pos | ring]. Qed.

Lemma call_strike_deriv (S K T r sigma : R) :
  0 < S -> 0 < K -> 0 < T -> 0 < sigma ->
  derivable_pt_lim
    (fun k => returned (black_scholes_price S k T r sigma "call")) K
    (- (exp (- r * T) * std_cdf (d2_formula S K T r sigma))).
Proof.
  intros HS HK HT Hs.
  destruct (d1_derivable_strike S K T r sigma HS HK HT Hs) as [l Hd].
  assert (Hb := pdf_balance S K T r sigma HS HK HT Hs).
  apply (dl_ext
           (fun k => S * std_cdf (d1_formula S k T r sigma)
                     - k * exp (- r * T)
                       * std_cdf (d1_formula S k T r sigma - sigma * sqrt T))).
  { intros y. rewrite (price_call_general S y T r sigma HT Hs). reflexivity. }
  eapply dl_value.
  { eapply (call_param_deriv (fun _ => S) (fun k => k * exp (- r * T))
              (fun k => d1_formula S k T r sigma) (fun _ => sigma * sqrt T)
              K 0 _ _ 0);
      [apply dl_const | apply discount_strike_deriv | exact Hd
      | apply dl_const | exact Hb]. }
  unfold d2_formula. ring.
Qed.

Lemma put_strike_deriv (S K T r sigma : R) :
  0 < S -> 0 < K -> 0 < T -> 0 < sigma ->
  derivable_pt_lim
    (fun k => returned (black_scholes_price S k T r sigma "put")) K
    (exp (- r * T) * std_cdf (- d2_formula S K T r sigma)).
Proof.
  intros HS HK HT Hs.
  destruct (d1_derivable_strike S K T r sigma HS HK HT Hs) as [l Hd].
  assert (Hb := pdf_balance S K T r sigma HS HK HT Hs).
  apply (dl_ext
           (fun k => k * exp (- r * T)
                     * std_cdf (- (d1_formula S k T r sigma - sigma * sqrt T))
                     - S * std_cdf (- d1_formula S k T r sigma))).
  { intros y. rewrite (price_put_general S y T r sigma HT Hs). reflexivity. }
  eapply dl_value.
  { eapply (put_param_deriv (fun _ => S) (fun k => k * exp (- r * T))
              (fun k => d1_formula S k T r sigma) (fun _ => sigma * sqrt T)
              K 0 _ _ 0);
      [apply dl_const | apply discount_strike_deriv | exact Hd
      | apply dl_const | exact Hb]. }
  unfold d2_formula. ring.
Qed.

(** X21. A higher strike never raises a call and never lowers a put: for
    S, T, sigma > 0 and 0 < K1 <= K2 the call struck at K2 is worth at most
    the call struck at K1, and the put struck at K2 at least the put struck
    at K1. *)
Theorem price_monotone_in_strike (S K1 K2 T r sigma : R) :
  0 < S -> 0 < T -> 0 < sigma -> 0 < K1 -> K1 <= K2 ->
  (exists c1 c2,
     black_scholes_price S K1 T r sigma "call" = Return c1 /\
     black_scholes_price S K2 T r sigma "call" = Return c2 /\ c2 <= c1) /\
  (exists p1 p2,
     black_scholes_price S K1 T r sigma "put" = Return p1 /\
     black_scholes_price S K2 T r sigma "put" = Return p2 /\ p1 <= p2).
Proof.
  intros HS HT Hs H1 H12.
  destruct (price_returns S K1 T r sigma HT Hs) as [Ec1 Ep1].
  destruct (price_returns S K2 T r sigma HT Hs) as [Ec2 Ep2].
  split; do 2 eexists; (split; [eassumption |]); (split; [eassumption |]).
  - assert (H := deriv_nonneg_incr_on K1 K2
                   (fun k => - returned (black_scholes_price S k T r sigma "call"))
                   (fun k => exp (- r * T)
                             * std_cdf (d2_formula S k T r sigma))).
    cbv beta in H.
    assert (Hle : - returned (black_scholes_price S K1 T r sigma "call")
                  <= - returned (black_scholes_price S K2 T r sigma "call")).
    { apply H; try lra.
      - intros k Hk. eapply dl_value.
        + apply dl_opp. apply call_strike_deriv; lra.
        + ring.
      - intros k _. apply Rmult_le_pos;
          [apply Rlt_le, exp_pos | apply std_cdf_ge_0]. }
    lra.
  - apply (deriv_nonneg_incr_on K1 K2
             (fun k => returned (black_scholes_price S k T r sigma "put"))
             (fun k => exp (- r * T)
                       * std_cdf (- d2_formula S k T r sigma))); try lra.
    + intros k Hk. apply put_strike_deriv; lra.
    + intros k _. apply Rmult_le_pos;
        [apply Rlt_le, exp_pos | apply std_cdf_ge_0].
Qed.

Lemma price_monotone_in_strike_witness :
  0 < 100 /\ 0 < 1 /\ 0 < 0.2 /\ 0 < 105 /\ 105 <= 110 /\
  exists c1 c2,
    black_scholes_price 100 105 1 0.05 0.2 "call" = Return c1 /\
    black_scholes_price 100 110 1 0.05 0.2 "call" = Return c2 /\ c2 <= c1.
Proof.
  repeat (split; [lra |]).
  destruct (price_monotone_in_strike 100 105 110 1 0.05 0.2) as [H _];
    [lra | lra | lra | lra | lra | exact H].
Defined.

(** ** Relations between the call and the put Greeks *)

(** X9. Before expiry, for S, K > 0 and all r and sigma (zero volatility
    included): delta(call) - delta(put) = 1,
    theta(call) - theta(put) = - r K exp (- r T) / 365 and
    rho(call) - rho(put) = K T exp (- r T) / 100. *)
Theorem greeks_parity (S K T r sigma : R) :
  0 < S -> 0 < K -> 0 < T ->
  exists dc dp tc tp rc rp : R,
    delta S K T r sigma "call" = Return dc /\
    delta S K T r sigma "put" = Return dp /\
    theta S K T r sigma "call" = Return tc /\
    theta S K T r sigma "put" = Return tp /\
    rho S K T r sigma "call" = Return rc /\
    rho S K T r sigma "put" = Return rp /\
    dc - dp = 1 /\
    tc - tp = - (r * K * exp (- r * T)) / 365 /\
    rc - rp = K * T * exp (- r * T) / 100.
Proof.
  intros HS HK HT. unfold delta, theta, rho. rewrite (Rleb_false T 0 HT).
  destruct (_calculate_d1_d2 S K T r sigma) as [d1 d2]. simpl.
  do 6 eexists. do 6 (split; [reflexivity |]).
  rewrite norm_cdf_eopp. repeat split; field.
  apply Rgt_not_eq, sqrt_lt_R0, HT.
Qed.

Lemma greeks_parity_witness :
  0 < 100 /\ 0 < 105 /\ 0 < 1 /\
  exists dc dp : R,
    delta 100 105 1 0.05 0.2 "call" = Return dc /\
    delta 100 105 1 0.05 0.2 "put" = Return dp /\
    dc - dp = 1.
Proof.
  repeat (split; [lra |]).
  destruct (greeks_parity 100 105 1 0.05 0.2)
    as (dc & dp & tc & tp & rc & rp & H1 & H2 & _ & _ & _ & _ & H3 & _);
    [lra | lra | lra |].
  exists dc, dp. exact (conj H1 (conj H2 H3)).
Defined.

(** ** Bounds on the price *)

(** X10. No-arbitrage bounds: for S, K, T, sigma > 0 the call lies between
    max(0, S - K exp (- r T)) and S, and the put between
    max(0, K exp (- r T) - S) and K exp (- r T); with r >= 0 the call is
    worth at least its intrinsic value max(0, S - K). *)
Theorem price_bounds (S K T r sigma : R) :
  0 < S -> 0 < K -> 0 < T -> 0 < sigma ->
  exists c p : R,
    black_scholes_price S K T r sigma "call" = Return c /\
    black_scholes_price S K T r sigma "put" = Return p /\
    Rmax 0 (S - K * exp (- r * T)) <= c <= S /\
    Rmax 0 (K * exp (- r * T) - S) <= p <= K * exp (- r * T) /\
    (0 <= r -> Rmax 0 (S - K) <= c).
Proof.
  intros HS HK HT Hs.
  rewrite (price_call_general S K T r sigma HT Hs).
  rewrite (price_put_general S K T r sigma HT Hs).
  do 2 eexists. split; [reflexivity |]. split; [reflexivity |].
  assert (Hc := price_call_nonneg_general S K T r sigma HS HK HT Hs).
  assert (Hp := price_put_nonneg_general S K T r sigma HS HK HT Hs).
  assert (Hd : 0 < K * exp (- r * T))
    by (apply Rmult_lt_0_compat; [exact HK | apply exp_pos]).
  rewrite !std_cdf_sym in *.
  assert (B1 := std_cdf_ge_0 (d1_formula S K T r sigma)).
  assert (B2 := std_cdf_le_1 (d1_formula S K T r sigma)).
  assert (B3 := std_cdf_ge_0 (d2_formula S K T r sigma)).
  assert (B4 := std_cdf_le_1 (d2_formula S K T r sigma)).
  set (c1 := std_cdf (d1_formula S K T r sigma)) in *.
  set (c2 := std_cdf (d2_formula S K T r sigma)) in *.
  set (D := K * exp (- r * T)) in *.
  assert (HSc : 0 <= S * (1 - c1)) by (apply Rmult_le_pos; lra).
  assert (HSc' : 0 <= S * c1) by (apply Rmult_le_pos; lra).
  assert (HDc : 0 <= D * c2) by (apply Rmult_le_pos; lra).
  assert (HDc' : 0 <= D * (1 - c2)) by (apply Rmult_le_pos; lra).
  repeat split.
  - apply Rmax_lub; lra.
  - lra.
  - apply Rmax_lub; lra.
  - lra.
  - intros Hr. assert (Hx := exp_rate_le_1 r T HT Hr).
    assert (D <= K) by (unfold D; nra).
    apply Rmax_lub; lra.
Qed.

Lemma price_bounds_witness :
  0 < 100 /\ 0 < 105 /\ 0 < 1 /\ 0 < 0.2 /\
  exists c : R,
    black_scholes_price 100 105 1 0.05 0.2 "call" = Return c /\
    Rmax 0 (100 - 105 * exp (- (0.05) * 1)) <= c <= 100.
Proof.
  repeat (split; [lra |]).
  destruct (price_bounds 100 105 1 0.05 0.2) as (c & p & Hc & _ & Hb & _);
    [lra | lra | lra | lra |].
  exists c. exact (conj Hc Hb).
Defined.

(** ** Delta as a function of the spot *)

(** X11. Delta never decreases when the spot grows, on every branch of the
    code: for K > 0, 0 < S1 <= S2 and any T, r and sigma, the delta of a call
    at S1 is at most the one at S2, and the same for a put. *)
Theorem delta_monotone_in_spot (S1 S2 K T r sigma : R) :
  0 < K -> 0 < S1 -> S1 <= S2 ->
  (exists d1 d2,
     delta S1 K T r sigma "call" = Return d1 /\
     delta S2 K T r sigma "call" = Return d2 /\ d1 <= d2) /\
  (exists d1 d2,
     delta S1 K T r sigma "put" = Return d1 /\
     delta S2 K T r sigma "put" = Return d2 /\ d1 <= d2).
Proof.
  intros HK H1 H12. unfold delta.
  destruct (Rle_lt_dec T 0) as [HT | HT].
  { rewrite (Rleb_true T 0 HT). simpl.
    split; do 2 eexists; (split; [reflexivity |]); (split; [reflexivity |]);
      unfold Rltb.
    - destruct (Rlt_dec K S1), (Rlt_dec K S2); lra.
    - destruct (Rlt_dec S1 K), (Rlt_dec S2 K); lra. }
  rewrite (Rleb_false T 0 HT).
  destruct (Rle_lt_dec sigma 0) as [Hs | Hs].
  { unfold _calculate_d1_d2. rewrite (Rleb_true sigma 0 Hs), orb_true_r.
    unfold Rltb.
    destruct (Rlt_dec K S1), (Rlt_dec K S2); try lra; simpl;
      split; do 2 eexists; (split; [reflexivity |]); (split; [reflexivity |]);
      lra. }
  rewrite !(d1_d2_general _ K T r sigma HT Hs). simpl.
  assert (H := std_cdf_incr _ _ (d1_formula_incr S1 S2 K T r sigma HK HT Hs H1 H12)).
  split; do 2 eexists; (split; [reflexivity |]); (split; [reflexivity |]); lra.
Qed.

Lemma delta_monotone_in_spot_witness :
  0 < 105 /\ 0 < 100 /\ 100 <= 110 /\
  exists d1 d2,
    delta 100 105 1 0.05 0.2 "call" = Return d1 /\
    delta 110 105 1 0.05 0.2 "call" = Return d2 /\ d1 <= d2.
Proof.
  repeat (split; [lra |]).
  destruct (delta_monotone_in_spot 100 110 105 1 0.05 0.2) as [H _];
    [lra | lra | lra | exact H].
Defined.

(** The spot at which [d1] takes a given value. *)
Lemma d1_at_spot (x K T r sigma : R) :
  0 < K -> 0 < T -> 0 < sigma ->
  d1_formula (K * exp (x * (sigma * sqrt T) - (r + 0.5 * sigma ^ 2) * T))
             K T r sigma = x.
Proof.
  intros HK HT Hs. unfold d1_formula.
  replace (K * exp (x * (sigma * sqrt T) - (r + 0.5 * sigma ^ 2) * T) / K)
    with (exp (x * (sigma * sqrt T) - (r + 0.5 * sigma ^ 2) * T))
    by (field; lra).
  rewrite ln_exp. field.
  split; apply Rgt_not_eq; [apply sqrt_lt_R0, HT | exact Hs].
Qed.

(** X12. Deep in and out of the money: before expiry and with volatility,
    the delta of a call tends to 1 as the spot grows and to 0 as the spot
    tends to 0; the delta of a put is the delta of the call minus 1, so it
    tends to 0 and to -1. *)
Theorem delta_limits (K T r sigma eps : R) :
  0 < K -> 0 < T -> 0 < sigma -> 0 < eps ->
  (exists M, 0 < M /\ forall S, M <= S ->
     exists dc dp,
       delta S K T r sigma "call" = Return dc /\
       delta S K T r sigma "put" = Return dp /\
       1 - eps < dc <= 1 /\ - eps < dp <= 0) /\
  (exists m, 0 < m /\ forall S, 0 < S -> S <= m ->
     exists dc dp,
       delta S K T r sigma "call" = Return dc /\
       delta S K T r sigma "put" = Return dp /\
       0 <= dc < eps /\ - 1 <= dp < - 1 + eps).
Proof.
  intros HK HT Hs Heps.
  destruct (std_cdf_tail eps Heps) as [M0 HM0].
  split.
  - exists (K * exp (- M0 * (sigma * sqrt T) - (r + 0.5 * sigma ^ 2) * T)).
    assert (HM : 0 < K * exp (- M0 * (sigma * sqrt T)
                              - (r + 0.5 * sigma ^ 2) * T))
      by (apply Rmult_lt_0_compat; [exact HK | apply exp_pos]).
    split; [exact HM |]. intros S HS.
    destruct (delta_general S K T r sigma HT Hs) as [Ec Ep].
    do 2 eexists. split; [exact Ec |]. split; [exact Ep |].
    assert (Hd := d1_formula_incr _ S K T r sigma HK HT Hs HM HS).
    rewrite d1_at_spot in Hd by assumption.
    assert (Hlow := HM0 (- d1_formula S K T r sigma)).
    rewrite std_cdf_sym in Hlow.
    assert (Hup := std_cdf_le_1 (d1_formula S K T r sigma)).
    assert (1 - std_cdf (d1_formula S K T r sigma) < eps)
      by (apply Hlow; lra).
    lra.
  - exists (K * exp (M0 * (sigma * sqrt T) - (r + 0.5 * sigma ^ 2) * T)).
    split; [apply Rmult_lt_0_compat; [exact HK | apply exp_pos] |].
    intros S HS HSm.
    destruct (delta_general S K T r sigma HT Hs) as [Ec Ep].
    do 2 eexists. split; [exact Ec |]. split; [exact Ep |].
    assert (Hd := d1_formula_incr S _ K T r sigma HK HT Hs HS HSm).
    rewrite d1_at_spot in Hd by assumption.
    assert (Hlow := HM0 (d1_formula S K T r sigma) Hd).
    assert (Hge := std_cdf_ge_0 (d1_formula S K T r sigma)).
    lra.
Qed.

Lemma delta_limits_witness :
  0 < 105 /\ 0 < 1 /\ 0 < 0.2 /\ 0 < 0.01 /\
  exists M, 0 < M /\ forall S, M <= S ->
    exists dc dp,
      delta S 105 1 0.05 0.2 "call" = Return dc /\
      delta S 105 1 0.05 0.2 "put" = Return dp /\
      1 - 0.01 < dc <= 1 /\ - (0.01) < dp <= 0.
Proof.
  repeat (split; [lra |]).
  destruct (delta_limits 105 1 0.05 0.2 0.01) as [H _];
    [lra | lra | lra | lra | exact H].
Defined.

(** ** Signs of rho and theta *)

(** X13. On every valid input (S, K > 0; T, sigma >= 0; any r) the rho of a
    call is non-negative and the rho of a put non-positive; with r >= 0 the
    theta of a call is non-positive. *)
Theorem rho_theta_signs (S K T r sigma : R) :
  0 < S -> 0 < K -> 0 <= T -> 0 <= sigma ->
  (exists rc rp,
     rho S K T r sigma "call" = Return rc /\
     rho S K T r sigma "put" = Return rp /\ 0 <= rc /\ rp <= 0) /\
  (0 <= r ->
   exists tc, theta S K T r sigma "call" = Return tc /\ tc <= 0).
Proof.
  intros HS HK HT Hs. unfold rho, theta.
  destruct (Rle_lt_dec T 0) as [HT0 | HT0].
  { rewrite (Rleb_true T 0 HT0).
    split; [| intros _]; repeat eexists; lra. }
  rewrite (Rleb_false T 0 HT0).
  destruct (_calculate_d1_d2 S K T r sigma) as [d1 d2]. simpl.
  assert (B1 := norm_cdf_bounds d2). assert (B2 := norm_cdf_bounds (eopp d2)).
  assert (B3 := norm_pdf_nonneg d1).
  assert (He : 0 < exp (- r * T)) by apply exp_pos.
  assert (Hq : 0 < sqrt T) by (apply sqrt_lt_R0, HT0).
  assert (HKT : 0 <= K * T * exp (- r * T))
    by (apply Rmult_le_pos; [nra | lra]).
  split.
  - do 2 eexists. split; [reflexivity |]. split; [reflexivity |].
    assert (0 <= K * T * exp (- r * T) * norm.cdf d2)
      by (apply Rmult_le_pos; lra).
    assert (0 <= K * T * exp (- r * T) * norm.cdf (eopp d2))
      by (apply Rmult_le_pos; lra).
    lra.
  - intros Hr. eexists. split; [reflexivity |].
    assert (H1 : 0 <= S * norm.pdf d1 * sigma / (2 * sqrt T)).
    { apply Rmult_le_pos; [| apply Rlt_le, Rinv_0_lt_compat; lra].
      apply Rmult_le_pos; [| lra]. apply Rmult_le_pos; lra. }
    assert (H2 : 0 <= r * K * exp (- r * T) * norm.cdf d2).
    { apply Rmult_le_pos; [| lra]. apply Rmult_le_pos; [nra | lra]. }
    unfold Rdiv in *. lra.
Qed.

Lemma rho_theta_signs_witness :
  0 < 100 /\ 0 < 105 /\ 0 <= 1 /\ 0 <= 0.2 /\
  exists rc rp,
    rho 100 105 1 0.05 0.2 "call" = Return rc /\
    rho 100 105 1 0.05 0.2 "put" = Return rp /\ 0 <= rc /\ rp <= 0.
Proof.
  repeat (split; [lra |]).
  destruct (rho_theta_signs 100 105 1 0.05 0.2) as [H _];
    [lra | lra | lra | lra | exact H].
Defined.

(** ** When an error is raised *)



(** ** Scaling the spot and the strike together *)

Lemma d1_d2_scale (c S K T r sigma : R) :
  0 < c -> 0 < K ->
  _calculate_d1_d2 (c * S) (c * K) T r sigma = _calculate_d1_d2 S K T r sigma.
Proof.
  intros Hc HK. unfold _calculate_d1_d2.
  replace (c * S / (c * K)) with (S / K) by (field; lra).
  replace (Rltb (c * K) (c * S)) with (Rltb K S); [reflexivity |].
  unfold Rltb. destruct (Rlt_dec K S), (Rlt_dec (c * K) (c * S));
    try reflexivity; exfalso; nra.
Qed.

Lemma Rmax_0_scale (c x : R) : 0 < c -> Rmax 0 (c * x) = c * Rmax 0 x.
Proof.
  intros Hc. unfold Rmax.
  destruct (Rle_dec 0 (c * x)), (Rle_dec 0 x); try ring; exfalso; nra.
Qed.

(** X15. The price is homogeneous of degree one in (spot, strike) and delta
    of degree zero: for c > 0 and K > 0, multiplying S and K by c multiplies
    the returned price by c and leaves delta unchanged, on every branch and
    for every option type. *)
Theorem price_scales_with_spot_and_strike
        (c S K T r sigma : R) (option_type : string) :
  0 < c -> 0 < K ->
  (forall v, black_scholes_price S K T r sigma option_type = Return v ->
             black_scholes_price (c * S) (c * K) T r sigma option_type
             = Return (c * v)) /\
  delta (c * S) (c * K) T r sigma option_type
  = delta S K T r sigma option_type.
Proof.
  intros Hc HK. unfold black_scholes_price, delta.
  rewrite (d1_d2_scale c S K T r sigma Hc HK).
  destruct (_calculate_d1_d2 S K T r sigma) as [d1 d2].
  replace (c * S - c * K) with (c * (S - K)) by ring.
  replace (c * K - c * S) with (c * (K - S)) by ring.
  rewrite !(Rmax_0_scale c) by exact Hc.
  replace (Rltb (c * K) (c * S)) with (Rltb K S).
  2:{ unfold Rltb. destruct (Rlt_dec K S), (Rlt_dec (c * K) (c * S));
        try reflexivity; exfalso; nra. }
  replace (Rltb (c * S) (c * K)) with (Rltb S K).
  2:{ unfold Rltb. destruct (Rlt_dec S K), (Rlt_dec (c * S) (c * K));
        try reflexivity; exfalso; nra. }
  split; [| reflexivity].
  intros v.
  destruct (Rleb T 0), (String.eqb option_type "call"),
    (String.eqb option_type "put"); intros H; try discriminate H;
    injection H as <-; f_equal; ring.
Qed.

Lemma price_scales_with_spot_and_strike_witness :
  0 < 2 /\ 0 < 105 /\
  delta (2 * 100) (2 * 105) 1 0.05 0.2 "call" = delta 100 105 1 0.05 0.2 "call".
Proof.
  repeat (split; [lra |]).
  destruct (price_scales_with_spot_and_strike 2 100 105 1 0.05 0.2 "call")
    as [_ H]; [lra | lra | exact H].
Defined.

(** * The dashboard, [app.py]

    The script reads five sidebar widgets, converts them to the units of the
    model, computes the prices and the Greeks inside a [try] block, and in
    its second tab evaluates the price on a grid of spots around the strike.
    The numeric statements are embedded; the widgets and the chart are
    not. *)

(** [import black_scholes_model as bsm] *)
Module bsm.
Definition black_scholes_price := black_scholes_price.
Definition delta := delta.
Definition gamma := gamma.
Definition vega := vega.
Definition theta := theta.
Definition rho := rho.
End bsm.

Module app.

(** What the widgets of lines 35-49 let through: two number inputs with
    [min_value=1.0], an integer slider from 1 to 1095 and two sliders from
    0 to 20 and from 1 to 100. *)
Definition sidebar_ranges (S K : R) (days_to_expiry : Z)
           (r_percent sigma_percent : R) : Prop :=
  1 <= S /\ 1 <= K /\ (1 <= days_to_expiry <= 1095)%Z /\
  0 <= r_percent <= 20 /\ 1 <= sigma_percent <= 100.

(** Model input conversions (lines 52-54). *)
Definition r (r_percent : R) : R := r_percent / 100.
Definition sigma (sigma_percent : R) : R := sigma_percent / 100.
Definition T (days_to_expiry : Z) : R := IZR days_to_expiry / 365.

(** A block of the script either completes with a value or is left by an
    exception. *)
Inductive outcome (A : Type) : Type :=
| Completed : A -> outcome A
| Raised : exn -> outcome A.

Arguments Completed {A} _.
Arguments Raised {A} _.

Definition bind {A : Type} (x : result) (k : R -> outcome A) : outcome A :=
  match x with
  | Return v => k v
  | Raise e => Raised e
  end.

Notation "'let!' x ':=' e 'in' k" := (bind e (fun x => k))
  (at level 10, x name, e at level 100, k at level 200).

(** The ten numbers of the [try] block (lines 57-70). *)
Record quantities : Type := {
  call_price : R;
  put_price : R;
  call_delta : R;
  put_delta : R;
  gamma : R;
  vega : R;
  call_theta : R;
  put_theta : R;
  call_rho : R;
  put_rho : R
}.

(** The [try] block; [Raised e] is the [except] branch, which reports the
    error and stops the script. *)
Definition calculations (S K T r sigma : R) : outcome quantities :=
  let! call_price := bsm.black_scholes_price S K T r sigma "call" in
  let! put_price := bsm.black_scholes_price S K T r sigma "put" in
  let! call_delta := bsm.delta S K T r sigma "call" in
  let! put_delta := bsm.delta S K T r sigma "put" in
  let! gamma := bsm.gamma S K T r sigma in
  let! vega := bsm.vega S K T r sigma in
  let! call_theta := bsm.theta S K T r sigma "call" in
  let! put_theta := bsm.theta S K T r sigma "put" in
  let! call_rho := bsm.rho S K T r sigma "call" in
  let! put_rho := bsm.rho S K T r sigma "put" in
  Completed {| call_price := call_price; put_price := put_price;
               call_delta := call_delta; put_delta := put_delta;
               gamma := gamma; vega := vega;
               call_theta := call_theta; put_theta := put_theta;
               call_rho := call_rho; put_rho := put_rho |}.

(** [np.linspace start stop num]: [num] evenly spaced samples from [start]
    to [stop], both included. *)
Definition linspace (start stop : R) (num : nat) : list R :=
  map (fun i => start + INR i * ((stop - start) / INR (num - 1))) (seq 0 num).

(** The x-axis of the chart (line 130). *)
Definition S_range (K : R) : list R := linspace (K * 0.7) (K * 1.3) 100.

(** A list comprehension over calls that may raise: the list of the
    returned values, or the first exception. *)
Fixpoint comprehension (f : R -> result) (l : list R) : outcome (list R) :=
  match l with
  | [] => Completed []
  | x :: l' =>
      match f x with
      | Raise e => Raised e
      | Return v =>
          match comprehension f l' with
          | Completed vs => Completed (v :: vs)
          | Raised e => Raised e
          end
      end
  end.

(** Lines 133-145 and 187-190, by the value of the radio button. *)
Definition current_price (option_to_analyze : string) (q : quantities) : R :=
  if String.eqb option_to_analyze "Call" then call_price q else put_price q.

Definition price_curve (option_to_analyze : string) (K T r sigma : R)
  : outcome (list R) :=
  if String.eqb option_to_analyze "Call" then
    comprehension
      (fun s_val => bsm.black_scholes_price s_val K T r sigma "call")
      (S_range K)
  else
    comprehension
      (fun s_val => bsm.black_scholes_price s_val K T r sigma "put")
      (S_range K).

(** The profit or loss at expiry at one spot: one entry of
    [np.maximum(S_range - K, 0) - current_price]. *)
Definition payoff (option_to_analyze : string) (K current_price s : R) : R :=
  if String.eqb option_to_analyze "Call" then Rmax (s - K) 0 - current_price
  else Rmax (K - s) 0 - current_price.

Definition payoff_at_expiry (option_to_analyze : string)
           (K current_price : R) : list R :=
  map (payoff option_to_analyze K current_price) (S_range K).

Definition breakeven (option_to_analyze : string) (K current_price : R) : R :=
  if String.eqb option_to_analyze "Call" then K + current_price
  else K - current_price.

End app.

(** ** The sidebar feeds the model valid inputs *)

Lemma sidebar_valid (S K : R) (days_to_expiry : Z)
      (r_percent sigma_percent : R) :
  app.sidebar_ranges S K days_to_expiry r_percent sigma_percent ->
  0 < S /\ 0 < K /\ 0 < app.T days_to_expiry <= 3 /\
  0 <= app.r r_percent <= 0.2 /\ 0.01 <= app.sigma sigma_percent <= 1.
Proof.
  intros (HS & HK & [Hd1 Hd2] & Hr & Hs).
  apply IZR_le in Hd1, Hd2.
  unfold app.T, app.r, app.sigma. repeat split; lra.
Qed.

(** X16. With the values the sidebar widgets allow, the converted inputs
    satisfy the model's precondition (0 < T <= 3, 0 <= r <= 0.2,
    0.01 <= sigma <= 1, S, K >= 1) and the [try] block completes: it never
    reaches the [except] branch, and the ten numbers it shows satisfy
    put-call parity, have non-negative prices, gamma and vega, and deltas
    in [0, 1] and [-1, 0] that differ by 1. *)
Theorem dashboard_calculations_complete
        (S K : R) (days_to_expiry : Z) (r_percent sigma_percent : R) :
  app.sidebar_ranges S K days_to_expiry r_percent sigma_percent ->
  0 < app.T days_to_expiry <= 3 /\
  0 <= app.r r_percent <= 0.2 /\
  0.01 <= app.sigma sigma_percent <= 1 /\
  exists q,
    app.calculations S K (app.T days_to_expiry) (app.r r_percent)
                     (app.sigma sigma_percent) = app.Completed q /\
    0 <= app.call_price q /\ 0 <= app.put_price q /\
    app.call_price q - app.put_price q
    = S - K * exp (- app.r r_percent * app.T days_to_expiry) /\
    0 <= app.call_delta q <= 1 /\ - 1 <= app.put_delta q <= 0 /\
    app.call_delta q - app.put_delta q = 1 /\
    0 <= app.gamma q /\ 0 <= app.vega q.
Proof.
  intros Hrange.
  destruct (sidebar_valid _ _ _ _ _ Hrange) as (HS & HK & HT & Hr & Hs).
  split; [exact HT |]. split; [exact Hr |]. split; [exact Hs |].
  set (T := app.T days_to_expiry) in *.
  set (r := app.r r_percent) in *.
  set (sigma := app.sigma sigma_percent) in *.
  assert (HT0 : 0 < T) by lra. assert (Hs0 : 0 < sigma) by lra.
  unfold app.calculations, bsm.black_scholes_price, bsm.delta, bsm.gamma,
    bsm.vega, bsm.theta, bsm.rho.
  rewrite (price_call_general S K T r sigma HT0 Hs0).
  rewrite (price_put_general S K T r sigma HT0 Hs0).
  destruct (delta_general S K T r sigma HT0 Hs0) as [-> ->].
  rewrite (gamma_general S K T r sigma HT0 Hs0).
  rewrite (vega_general S K T r sigma HT0 Hs0).
  destruct (theta_general S K T r sigma HT0 Hs0) as [-> ->].
  destruct (rho_general S K T r sigma HT0 Hs0) as [-> ->].
  cbn [app.bind]. eexists. split; [reflexivity |].
  cbn [app.call_price app.put_price app.call_delta app.put_delta
       app.gamma app.vega].
  assert (B1 := std_cdf_ge_0 (d1_formula S K T r sigma)).
  assert (B2 := std_cdf_le_1 (d1_formula S K T r sigma)).
  assert (Hp := std_pdf_pos (d1_formula S K T r sigma)).
  assert (Hq : 0 < sqrt T) by (apply sqrt_lt_R0, HT0).
  split; [apply price_call_nonneg_general; assumption |].
  split; [apply price_put_nonneg_general; assumption |].
  split; [rewrite !std_cdf_sym; ring |].
  split; [lra |]. split; [lra |]. split; [ring |].
  split.
  - apply Rlt_le, Rdiv_lt_0_compat; [exact Hp |].
    apply Rmult_lt_0_compat; [apply Rmult_lt_0_compat |]; assumption.
  - apply vega_value_nonneg, HS.
Qed.

Lemma dashboard_calculations_complete_witness :
  app.sidebar_ranges 100 105 365 5 20 /\
  exists q,
    app.calculations 100 105 (app.T 365) (app.r 5) (app.sigma 20)
    = app.Completed q /\
    0 <= app.call_price q.
Proof.
  assert (H : app.sidebar_ranges 100 105 365 5 20).
  { unfold app.sidebar_ranges. repeat split; try lra; lia. }
  split; [exact H |].
  destruct (dashboard_calculations_complete 100 105 365 5 20 H)
    as (_ & _ & _ & q & Hq & Hc & _).
  exists q. exact (conj Hq Hc).
Defined.

(** ** The grid of spots *)

Lemma linspace_length (a b : R) (n : nat) : length (app.linspace a b n) = n.
Proof. unfold app.linspace. rewrite length_map, length_seq. reflexivity. Qed.

Lemma linspace_nth (a b d : R) (n i : nat) :
  (i < n)%nat ->
  nth i (app.linspace a b n) d = a + INR i * ((b - a) / INR (n - 1)).
Proof.
  intros Hi. unfold app.linspace.
  rewrite (nth_indep _ d (a + INR 0 * ((b - a) / INR (n - 1))))
    by (rewrite length_map, length_seq; exact Hi).
  rewrite (map_nth (fun i => a + INR i * ((b - a) / INR (n - 1)))).
  rewrite seq_nth by exact Hi. reflexivity.
Qed.

Lemma S_range_nth (K d : R) (i : nat) :
  (i < 100)%nat -> nth i (app.S_range K) d = K * 0.7 + INR i * (K * 0.6 / 99).
Proof.
  intros Hi. unfold app.S_range. rewrite linspace_nth by exact Hi.
  replace (INR (100 - 1)) with 99 by (rewrite INR_IZR_INZ; reflexivity).
  replace (K * 1.3 - K * 0.7) with (K * 0.6) by lra. reflexivity.
Qed.

Lemma S_range_In (K s : R) :
  In s (app.S_range K) ->
  exists i, (i < 100)%nat /\ s = K * 0.7 + INR i * (K * 0.6 / 99).
Proof.
  intros H. destruct (In_nth _ _ 0 H) as (i & Hi & E).
  unfold app.S_range in Hi. rewrite linspace_length in Hi.
  exists i. split; [exact Hi |]. rewrite <- E. apply S_range_nth, Hi.
Qed.

Lemma S_range_bounds (K s : R) :
  0 < K -> In s (app.S_range K) -> K * 0.7 <= s <= K * 1.3.
Proof.
  intros HK H. destruct (S_range_In K s H) as (i & Hi & ->).
  assert (H0 := pos_INR i).
  assert (H99 : INR i <= 99).
  { replace 99 with (INR 99) by (rewrite INR_IZR_INZ; reflexivity).
    apply le_INR. lia. }
  split; nra.
Qed.

(** X17. The x-axis of the chart: for K > 0 the grid has 100 spots, starts
    at 0.7 K, ends at 1.3 K, is strictly increasing, and every spot on it
    lies in [0.7 K, 1.3 K], hence is positive as the model requires. *)
Theorem S_range_grid (K : R) :
  0 < K ->
  length (app.S_range K) = 100%nat /\
  nth 0 (app.S_range K) 0 = K * 0.7 /\
  nth 99 (app.S_range K) 0 = K * 1.3 /\
  (forall i j, (i < j < 100)%nat ->
               nth i (app.S_range K) 0 < nth j (app.S_range K) 0) /\
  (forall s, In s (app.S_range K) -> K * 0.7 <= s <= K * 1.3 /\ 0 < s).
Proof.
  intros HK. split; [apply linspace_length |].
  split; [rewrite S_range_nth by lia; simpl; lra |].
  split; [rewrite S_range_nth by lia; simpl; lra |].
  split.
  - intros i j [Hij Hj]. rewrite !S_range_nth by lia.
    assert (INR i < INR j) by (apply lt_INR, Hij). nra.
  - intros s Hs. assert (H := S_range_bounds K s HK Hs). split; [exact H | lra].
Qed.

Lemma S_range_grid_witness :
  0 < 105 /\ length (app.S_range 105) = 100%nat /\
  nth 0 (app.S_range 105) 0 = 105 * 0.7.
Proof.
  split; [lra |].
  destruct (S_range_grid 105) as (H1 & H2 & _); [lra |].
  exact (conj H1 H2).
Defined.

(** ** The value curve *)

Lemma comprehension_returns (f : R -> result) (g : R -> R) (l : list R) :
  (forall s, In s l -> f s = Return (g s)) ->
  app.comprehension f l = app.Completed (map g l).
Proof.
  induction l as [| x l IH]; intros H; simpl; [reflexivity |].
  rewrite (H x) by (left; reflexivity).
  rewrite IH by (intros s Hs; apply H; right; exact Hs). reflexivity.
Qed.

Definition call_formula (K T r sigma s : R) : R :=
  s * std_cdf (d1_formula s K T r sigma)
  - K * exp (- r * T) * std_cdf (d2_formula s K T r sigma).

Definition put_formula (K T r sigma s : R) : R :=
  K * exp (- r * T) * std_cdf (- d2_formula s K T r sigma)
  - s * std_cdf (- d1_formula s K T r sigma).

Lemma price_curve_general (option_to_analyze : string) (K T r sigma : R) :
  0 < T -> 0 < sigma ->
  app.price_curve option_to_analyze K T r sigma
  = app.Completed
      (map (if String.eqb option_to_analyze "Call"
            then call_formula K T r sigma else put_formula K T r sigma)
           (app.S_range K)).
Proof.
  intros HT Hs. unfold app.price_curve, bsm.black_scholes_price.
  destruct (String.eqb option_to_analyze "Call");
    apply comprehension_returns; intros s _.
  - apply price_call_general; assumption.
  - apply price_put_general; assumption.
Qed.

Lemma map_S_range_nth (g : R -> R) (K : R) (i : nat) :
  (i < 100)%nat ->
  nth i (map g (app.S_range K)) 0 = g (nth i (app.S_range K) 0).
Proof.
  intros Hi.
  rewrite (nth_indep _ 0 (g 0))
    by (rewrite length_map; unfold app.S_range; rewrite linspace_length;
        exact Hi).
  apply map_nth.
Qed.

(** X18. The value curve of the chart: for K > 0, T > 0 and sigma > 0 the
    list comprehension completes with 100 prices, one per spot of the grid;
    along the grid they never decrease for "Call" and never increase for the
    other choice of the radio button. *)
Theorem price_curve_monotone (option_to_analyze : string) (K T r sigma : R) :
  0 < K -> 0 < T -> 0 < sigma ->
  exists curve,
    app.price_curve option_to_analyze K T r sigma = app.Completed curve /\
    length curve = 100%nat /\
    forall i j, (i <= j < 100)%nat ->
      (option_to_analyze = "Call"%string -> nth i curve 0 <= nth j curve 0) /\
      (option_to_analyze <> "Call"%string -> nth j curve 0 <= nth i curve 0).
Proof.
  intros HK HT Hs. eexists.
  split; [apply price_curve_general; assumption |].
  split.
  { rewrite length_map. unfold app.S_range. apply linspace_length. }
  intros i j [Hij Hj].
  rewrite !map_S_range_nth by lia.
  assert (Hi0 : 0 < nth i (app.S_range K) 0).
  { rewrite S_range_nth by lia. assert (H := pos_INR i). nra. }
  assert (Hle : nth i (app.S_range K) 0 <= nth j (app.S_range K) 0).
  { rewrite !S_range_nth by lia.
    assert (INR i <= INR j) by (apply le_INR, Hij). nra. }
  split; intros Ho.
  - rewrite Ho. simpl. unfold call_formula.
    apply price_call_incr_general; assumption.
  - apply String.eqb_neq in Ho. rewrite Ho. unfold put_formula.
    apply price_put_decr_general; assumption.
Qed.

Lemma price_curve_monotone_witness :
  0 < 105 /\ 0 < 1 /\ 0 < 0.2 /\
  exists curve,
    app.price_curve "Call" 105 1 0.05 0.2 = app.Completed curve /\
    length curve = 100%nat.
Proof.
  repeat (split; [lra |]).
  destruct (price_curve_monotone "Call" 105 1 0.05 0.2)
    as (curve & H1 & H2 & _); [lra | lra | lra |].
  exists curve. exact (conj H1 H2).
Defined.

(** ** Breakeven and the two curves *)

Lemma calculations_prices (S K T r sigma : R) (q : app.quantities) :
  0 < T -> 0 < sigma ->
  app.calculations S K T r sigma = app.Completed q ->
  app.call_price q = call_formula K T r sigma S /\
  app.put_price q = put_formula K T r sigma S.
Proof.
  intros HT Hs.
  unfold app.calculations, bsm.black_scholes_price, bsm.delta, bsm.gamma,
    bsm.vega, bsm.theta, bsm.rho.
  rewrite (price_call_general S K T r sigma HT Hs).
  rewrite (price_put_general S K T r sigma HT Hs).
  destruct (delta_general S K T r sigma HT Hs) as [-> ->].
  rewrite (gamma_general S K T r sigma HT Hs).
  rewrite (vega_general S K T r sigma HT Hs).
  destruct (theta_general S K T r sigma HT Hs) as [-> ->].
  destruct (rho_general S K T r sigma HT Hs) as [-> ->].
  cbn [app.bind]. intros H. injection H as <-. split; reflexivity.
Qed.

Lemma current_price_nonneg (option_to_analyze : string)
      (S K T r sigma : R) (q : app.quantities) :
  0 < S -> 0 < K -> 0 < T -> 0 < sigma ->
  app.calculations S K T r sigma = app.Completed q ->
  0 <= app.current_price option_to_analyze q.
Proof.
  intros HS HK HT Hs Hq.
  destruct (calculations_prices S K T r sigma q HT Hs Hq) as [Ec Ep].
  unfold app.current_price. destruct (String.eqb option_to_analyze "Call").
  - rewrite Ec. apply price_call_nonneg_general; assumption.
  - rewrite Ep. apply price_put_nonneg_general; assumption.
Qed.

(** X19. The breakeven line of the chart.  With the values the sidebar
    allows, the profit or loss at expiry is 0 at the breakeven spot; for
    "Call" it is a loss below the breakeven and a profit above, and for the
    other choice of the radio button the other way round. *)
Theorem breakeven_splits_profit_and_loss
        (option_to_analyze : string) (S K : R) (days_to_expiry : Z)
        (r_percent sigma_percent : R) (q : app.quantities) :
  app.sidebar_ranges S K days_to_expiry r_percent sigma_percent ->
  app.calculations S K (app.T days_to_expiry) (app.r r_percent)
                   (app.sigma sigma_percent) = app.Completed q ->
  let current_price := app.current_price option_to_analyze q in
  let breakeven := app.breakeven option_to_analyze K current_price in
  app.payoff option_to_analyze K current_price breakeven = 0 /\
  (option_to_analyze = "Call"%string ->
   forall s,
     (s <= breakeven -> app.payoff option_to_analyze K current_price s <= 0) /\
     (breakeven <= s -> 0 <= app.payoff option_to_analyze K current_price s)) /\
  (option_to_analyze <> "Call"%string ->
   forall s,
     (s <= breakeven -> 0 <= app.payoff option_to_analyze K current_price s) /\
     (breakeven <= s -> app.payoff option_to_analyze K current_price s <= 0)).
Proof.
  intros Hrange Hq.
  destruct (sidebar_valid _ _ _ _ _ Hrange) as (HS & HK & HT & Hr & Hs).
  assert (Hcp : 0 <= app.current_price option_to_analyze q).
  { apply (current_price_nonneg option_to_analyze S K
             (app.T days_to_expiry) (app.r r_percent)
             (app.sigma sigma_percent)); try assumption; lra. }
  cbv zeta. set (cp := app.current_price option_to_analyze q) in *.
  unfold app.payoff, app.breakeven.
  destruct (String.eqb_spec option_to_analyze "Call") as [E | E].
  - split; [| split; [intros _ | intros H; contradiction]].
    + unfold Rmax. destruct (Rle_dec (K + cp - K) 0); lra.
    + intros s. unfold Rmax. destruct (Rle_dec (s - K) 0); split; lra.
  - split; [| split; [intros H; contradiction | intros _]].
    + unfold Rmax. destruct (Rle_dec (K - (K - cp)) 0); lra.
    + intros s. unfold Rmax. destruct (Rle_dec (K - s) 0); split; lra.
Qed.

Lemma sidebar_defaults : app.sidebar_ranges 100 105 365 5 20.
Proof. unfold app.sidebar_ranges. repeat split; try lra; lia. Qed.

Lemma breakeven_splits_profit_and_loss_witness :
  app.sidebar_ranges 100 105 365 5 20 /\
  exists q,
    app.calculations 100 105 (app.T 365) (app.r 5) (app.sigma 20)
    = app.Completed q /\
    app.payoff "Call" 105 (app.current_price "Call" q)
      (app.breakeven "Call" 105 (app.current_price "Call" q)) = 0.
Proof.
  split; [exact sidebar_defaults |].
  destruct (sidebar_valid _ _ _ _ _ sidebar_defaults)
    as (HS & HK & HT & Hr & Hs).
  assert (HT0 : 0 < app.T 365) by lra.
  assert (Hs0 : 0 < app.sigma 20) by lra.
  assert (Hq : exists q,
             app.calculations 100 105 (app.T 365) (app.r 5) (app.sigma 20)
             = app.Completed q).
  { unfold app.calculations, bsm.black_scholes_price, bsm.delta, bsm.gamma,
      bsm.vega, bsm.theta, bsm.rho.
    rewrite (price_call_general 100 105 _ (app.r 5) _ HT0 Hs0).
    rewrite (price_put_general 100 105 _ (app.r 5) _ HT0 Hs0).
    destruct (delta_general 100 105 _ (app.r 5) _ HT0 Hs0) as [-> ->].
    rewrite (gamma_general 100 105 _ (app.r 5) _ HT0 Hs0).
    rewrite (vega_general 100 105 _ (app.r 5) _ HT0 Hs0).
    destruct (theta_general 100 105 _ (app.r 5) _ HT0 Hs0) as [-> ->].
    destruct (rho_general 100 105 _ (app.r 5) _ HT0 Hs0) as [-> ->].
    eexists. reflexivity. }
  destruct Hq as [q Hq]. exists q. split; [exact Hq |].
  exact (proj1 (breakeven_splits_profit_and_loss "Call" 100 105 365 5 20 q
                  sidebar_defaults Hq)).
Defined.

Lemma call_above_intrinsic (S K T r sigma : R) :
  0 < S -> 0 < K -> 0 < T -> 0 < sigma -> 0 <= r ->
  Rmax (S - K) 0 <= call_formula K T r sigma S.
Proof.
  intros HS HK HT Hs Hr. unfold call_formula.
  assert (Hc := price_call_nonneg_general S K T r sigma HS HK HT Hs).
  assert (Hp := price_put_nonneg_general S K T r sigma HS HK HT Hs).
  rewrite !std_cdf_sym in Hp.
  assert (Hx := exp_rate_le_1 r T HT Hr).
  assert (K * exp (- r * T) <= K) by nra.
  apply Rmax_lub; lra.
Qed.

(** X20. For "Call" and the values the sidebar allows (so r >= 0), the
    value curve lies above the expiry curve: at every spot of the grid the
    price is at least the intrinsic value max(s - K, 0), that is at least the
    profit or loss at expiry plus the premium paid, hence at least the
    profit or loss at expiry. *)
Theorem call_value_curve_above_payoff
        (S K : R) (days_to_expiry : Z) (r_percent sigma_percent : R)
        (q : app.quantities) :
  app.sidebar_ranges S K days_to_expiry r_percent sigma_percent ->
  app.calculations S K (app.T days_to_expiry) (app.r r_percent)
                   (app.sigma sigma_percent) = app.Completed q ->
  exists curve,
    app.price_curve "Call" K (app.T days_to_expiry) (app.r r_percent)
                    (app.sigma sigma_percent) = app.Completed curve /\
    forall i, (i < 100)%nat ->
      nth i (app.payoff_at_expiry "Call" K (app.current_price "Call" q)) 0
      + app.current_price "Call" q <= nth i curve 0 /\
      nth i (app.payoff_at_expiry "Call" K (app.current_price "Call" q)) 0
      <= nth i curve 0.
Proof.
  intros Hrange Hq.
  destruct (sidebar_valid _ _ _ _ _ Hrange) as (HS & HK & HT & Hr & Hs).
  set (T := app.T days_to_expiry) in *.
  set (r := app.r r_percent) in *.
  set (sigma := app.sigma sigma_percent) in *.
  assert (HT0 : 0 < T) by lra. assert (Hs0 : 0 < sigma) by lra.
  assert (Hcp := current_price_nonneg "Call" S K T r sigma q
                   HS HK HT0 Hs0 Hq).
  eexists. split; [apply price_curve_general; assumption |].
  intros i Hi. unfold app.payoff_at_expiry.
  rewrite !map_S_range_nth by exact Hi.
  assert (Hi0 : 0 < nth i (app.S_range K) 0).
  { rewrite S_range_nth by exact Hi. assert (H := pos_INR i). nra. }
  assert (H := call_above_intrinsic (nth i (app.S_range K) 0) K T r sigma
                 Hi0 HK HT0 Hs0 (proj1 Hr)).
  unfold app.payoff. rewrite !String.eqb_refl. split; lra.
Qed.

Lemma call_value_curve_above_payoff_witness :
  app.sidebar_ranges 100 105 365 5 20 /\
  forall q,
    app.calculations 100 105 (app.T 365) (app.r 5) (app.sigma 20)
    = app.Completed q ->
    exists curve,
      app.price_curve "Call" 105 (app.T 365) (app.r 5) (app.sigma 20)
      = app.Completed curve /\
      forall i, (i < 100)%nat ->
        nth i (app.payoff_at_expiry "Call" 105 (app.current_price "Call" q)) 0
        <= nth i curve 0.
Proof.
  split; [exact sidebar_defaults |]. intros q Hq.
  destruct (call_value_curve_above_payoff 100 105 365 5 20 q
              sidebar_defaults Hq) as (curve & Hc & H).
  exists curve. split; [exact Hc |]. intros i Hi. exact (proj2 (H i Hi)).
Defined.
